(** * PitchAnalyzerApp: the upload / validate / submit / render controller

    A shallow embedding of [src/web/static/js/app.js].  The browser objects
    the script reads and writes (the document, the blob-URL store, the
    network, the console) are gathered in one [World] record that the
    controller's methods thread through a small state-and-exception monad;
    a JavaScript [throw] is the [Throw] completion of that monad. *)

From Stdlib Require Import ZArith NArith Ascii String Floats.SpecFloat.
From stdpp Require Import base option strings list gmap pretty.

Set Warnings "-register-all".
Local Open Scope string_scope.

(** ** JavaScript strings

    A string is a [String.string].  ASCII characters are one character each;
    any other character is its UTF-8 bytes, all of which are above 127. *)

Module Str.

(** [String.prototype.toLowerCase] on one character.  Only [A]..[Z] change.
    On a character outside ASCII the browser may change the character, but
    never into one of the digits or lower-case letters the allow-list is
    written with, so membership of the allow-list is the same for the
    browser's result and for this one. *)
Definition toLowerCase_char (c : ascii) : ascii :=
  let n := N_of_ascii c in
  if ((65 <=? n) && (n <=? 90))%N then ascii_of_N (n + 32) else c.

Fixpoint toLowerCase (s : string) : string :=
  match s with
  | EmptyString => EmptyString
  | String c s' => String (toLowerCase_char c) (toLowerCase s')
  end.

(** [s.split(sep)] for a one-character separator: the pieces between the
    separators, in order; a string without the separator is its own single
    piece, and the empty string gives one empty piece. *)
Fixpoint split (sep : ascii) (s : string) : list string :=
  match s with
  | EmptyString => [EmptyString]
  | String c s' =>
      if Ascii.eqb c sep then EmptyString :: split sep s'
      else match split sep s' with
           | [] => [String c EmptyString]
           | piece :: pieces => String c piece :: pieces
           end
  end.

(** [array.pop()] as used on a fresh array: its last element, [undefined]
    (here [None]) on an empty array. *)
Definition pop (pieces : list string) : option string := last pieces.

(** [array.includes(x)] on an array of strings. *)
Definition includes (xs : list string) (x : string) : bool :=
  bool_decide (x ∈ xs).

(** The character [c] occurs in [s]. *)
Fixpoint contains (c : ascii) (s : string) : bool :=
  match s with
  | EmptyString => false
  | String c' s' => Ascii.eqb c' c || contains c s'
  end.

(** [n] copies of the character ["0"]. *)
Fixpoint zeros (n : nat) : string :=
  match n with
  | O => EmptyString
  | S n' => String "0" (zeros n')
  end.

End Str.

(** ** Uploaded files: the [File] objects handed over by the file picker or
    the drop event.  [content] is the raw bytes, never inspected here. *)

Module File.
Record t : Type := mk { name : string; size : N; content : string }.
End File.

#[global] Instance File_eq_dec : EqDecision File.t.
Proof. solve_decision. Defined.

(** ** Validation, lines 56-69 of [handleFileUpload] *)

Definition allowedExtensions : list string := ["mp3"; "wav"; "ogg"; "m4a"].

(** [file.name.split('.').pop().toLowerCase()]; [None] stands for the
    [TypeError] of calling [toLowerCase] on [undefined]. *)
Definition fileExtension (name : string) : option string :=
  Str.toLowerCase <$> Str.pop (Str.split "." name).

(** The negated condition of line 60. *)
Definition extensionAllowed (name : string) : bool :=
  match fileExtension name with
  | Some ext => Str.includes allowedExtensions ext
  | None => false
  end.

(** The condition of line 66, [file.size > 16 * 1024 * 1024]. *)
Definition sizeTooLarge (size : N) : bool := (16 * 1024 * 1024 <? size)%N.

Definition unsupportedFormatMessage : string :=
  "対応していないファイル形式です。MP3, WAV, OGG, M4A形式のファイルを選択してください。".
Definition fileTooLargeMessage : string :=
  "ファイルサイズが大きすぎます。16MB以下のファイルを選択してください。".
Definition unknownErrorMessage : string := "不明なエラーが発生しました".
Definition networkErrorMessage : string :=
  "ネットワークエラーが発生しました。インターネット接続を確認してください。".
Definition displayErrorMessage : string := "結果の表示中にエラーが発生しました".

(** ** JavaScript values, as [response.json()] produces them

    A number is an IEEE 754 binary64 value, [S754_finite s m e] being
    [(-1)^s * m * 2^e].  An object is the finite map of its own properties. *)

Inductive JsValue : Type :=
| JUndefined
| JNull
| JBool (b : bool)
| JNumber (x : spec_float)
| JString (s : string)
| JArray (items : list JsValue)
| JObject (props : gmap string JsValue).

Inductive Exn : Type := TypeError | SyntaxError | NetworkFailure | HostError.

(** How a statement or a call ends: normally with a value, or by throwing. *)
Inductive Completion (A : Type) : Type :=
| Normal (a : A)
| Throw (e : Exn).
Arguments Normal {A} a.
Arguments Throw {A} e.

(** The two conversions of the language that are left abstract:
    [Number::toString], the shortest decimal text of a number, and the
    conversion of an object or array to a string, which runs the object's
    [toString] / [valueOf] and may throw. *)
Class Builtins : Type := {
  Number_toString : spec_float → string;
  Object_toString : JsValue → Completion string
}.

(** [ToBoolean]. *)
Definition toBoolean (v : JsValue) : bool :=
  match v with
  | JUndefined | JNull => false
  | JBool b => b
  | JNumber (S754_zero _) | JNumber S754_nan => false
  | JNumber _ => true
  | JString s => negb (bool_decide (s = ""))
  | JArray _ | JObject _ => true
  end.

(** [a || b]. *)
Definition jsOr (a b : JsValue) : JsValue := if toBoolean a then a else b.

(** ** [Number.prototype.toFixed] *)

Module Num.

(** The magnitude [m * 2^e] as a fraction of integers. *)
Definition fraction (m : positive) (e : Z) : Z * Z :=
  if (0 <=? e)%Z then (Z.pos m * 2 ^ e, 1)%Z else (Z.pos m, 2 ^ (- e))%Z.

(** [x >= 10^21] for the magnitude [x = num / den]. *)
Definition atLeast1e21 (m : positive) (e : Z) : bool :=
  let '(num, den) := fraction m e in (10 ^ 21 * den <=? num)%Z.

(** The integer [n] for which [n / 10^f - x] is as close to zero as
    possible, the larger one when two are equally close: the floor of
    [x * 10^f + 1/2]. *)
Definition scaled (m : positive) (e : Z) (f : nat) : Z :=
  let '(num, den) := fraction m e in
  ((2 * num * 10 ^ Z.of_nat f + den) / (2 * den))%Z.

(** Steps 9-11 of [toFixed]: the decimal digits of [n], padded on the left
    with zeros to [f + 1] digits, with a point before the last [f]. *)
Definition pointed (n : Z) (f : nat) : string :=
  let m := pretty (Z.to_N n) in
  match f with
  | O => m
  | S _ =>
      let k := String.length m in
      let m := if (k <=? f)%nat then Str.zeros (f + 1 - k) +:+ m else m in
      let k := String.length m in
      substring 0 (k - f) m +:+ "." +:+ substring (k - f) f m
  end.

Definition toFixed `{Builtins} (x : spec_float) (f : nat) : string :=
  match x with
  | S754_zero _ => pointed 0 f
  | S754_finite s m e =>
      (if s then "-" else "") +:+
      (if atLeast1e21 m e then Number_toString (S754_finite false m e)
       else pointed (scaled m e f) f)
  | S754_infinity _ | S754_nan => Number_toString x
  end.

End Num.

(** [ToString] *)
Definition toString `{Builtins} (v : JsValue) : Completion string :=
  match v with
  | JUndefined => Normal "undefined"
  | JNull => Normal "null"
  | JBool true => Normal "true"
  | JBool false => Normal "false"
  | JNumber x => Normal (Number_toString x)
  | JString s => Normal s
  | JArray _ | JObject _ => Object_toString v
  end.

(** The conversion applied by the [textContent] setter, whose argument is a
    nullable string: [null] and [undefined] give the empty string. *)
Definition toTextContent `{Builtins} (v : JsValue) : Completion string :=
  match v with
  | JUndefined | JNull => Normal ""
  | _ => toString v
  end.

(** [v.key] for a property name that no prototype defines (every name the
    controller reads): the own property of an object, [undefined] on any
    other value, and a [TypeError] on [undefined] and [null]. *)
Definition getProp (v : JsValue) (key : string) : Completion JsValue :=
  match v with
  | JUndefined | JNull => Throw TypeError
  | JObject props => Normal (default JUndefined (props !! key))
  | _ => Normal JUndefined
  end.

(** [Object.keys(v).length]. *)
Definition keysLength (v : JsValue) : Completion nat :=
  match v with
  | JUndefined | JNull => Throw TypeError
  | JObject props => Normal (size props)
  | JArray items => Normal (length items)
  | JString s => Normal (String.length s)
  | JBool _ | JNumber _ => Normal 0
  end.

(** [v.toFixed(f)]: only a number has the method; values read from JSON are
    never functions, so on anything else the call is a [TypeError]. *)
Definition callToFixed `{Builtins} (v : JsValue) (f : nat) : Completion string :=
  match v with
  | JNumber x => Normal (Num.toFixed x f)
  | _ => Throw TypeError
  end.

(** ** The browser state the controller works on *)

(** An [<audio>] element built by [addAudioPlayer].  [src] is the object URL
    it plays; [onEnded] lists the object URLs that its ['ended'] listeners
    revoke. *)
Module Audio.
Record t : Type := mk {
  controls : bool;
  width : string;
  maxWidth : string;
  src : nat;
  onEnded : list nat
}.
End Audio.

(** An element of the page, with the attributes the script touches:
    [style.display], [textContent], [src] (of the plot image), the child
    nodes left by [innerHTML] and [appendChild], and the files selected in a
    file input (its [value] is [''] exactly when there are none). *)
Module Element.
Record t : Type := mk {
  display : string;
  textContent : string;
  src : string;
  children : list Audio.t;
  files : list File.t
}.

Definition set_display (d : string) (el : t) : t :=
  mk d (textContent el) (src el) (children el) (files el).
Definition set_textContent (s : string) (el : t) : t :=
  mk (display el) s (src el) [] (files el).
Definition set_src (s : string) (el : t) : t :=
  mk (display el) (textContent el) s (children el) (files el).
(** [el.innerHTML = ''] *)
Definition clear_innerHTML (el : t) : t :=
  mk (display el) "" (src el) [] (files el).
Definition appendChild (a : Audio.t) (el : t) : t :=
  mk (display el) (textContent el) (src el) (children el ++ [a]) (files el).
(** [el.value = ''] on a file input: the selection is emptied. *)
Definition clear_value (el : t) : t :=
  mk (display el) (textContent el) (src el) (children el) [].
(** What the browser does to a file input before its ['change'] event. *)
Definition set_files (fs : list File.t) (el : t) : t :=
  mk (display el) (textContent el) (src el) (children el) fs.
End Element.

(** [document] maps an id to the element carrying it.  [objectURLs] is the
    blob URL store: the object URLs created and not yet revoked, the [n]-th
    URL created being the number [n].  [revocations] records every call of
    [URL.revokeObjectURL], [requests] every [POST /upload] issued, and
    [console] every [console.error]. *)
Record World : Type := mkWorld {
  document : gmap string Element.t;
  objectURLs : gmap nat File.t;
  createdURLs : nat;
  revocations : list nat;
  requests : list File.t;
  console : list string
}.

Definition with_document (d : gmap string Element.t) (w : World) : World :=
  mkWorld d (objectURLs w) (createdURLs w) (revocations w) (requests w) (console w).

(** ** The monad of controller code: state passing with exceptions *)

Definition M (A : Type) : Type := World → Completion A * World.

#[global] Instance M_ret : MRet M := λ A a w, (Normal a, w).
#[global] Instance M_bind : MBind M := λ A B k m w,
  match m w with
  | (Normal a, w') => k a w'
  | (Throw e, w') => (Throw e, w')
  end.

Definition throw {A : Type} (e : Exn) : M A := λ w, (Throw e, w).

(** A conversion or property read that has no effect on the state. *)
Definition lift {A : Type} (c : Completion A) : M A := λ w, (c, w).

(** [try { body } catch (error) { handler }] *)
Definition tryCatch {A : Type} (body : M A) (handler : Exn → M A) : M A := λ w,
  match body w with
  | (Normal a, w') => (Normal a, w')
  | (Throw e, w') => handler e w'
  end.

(** [xs.forEach(f)] *)
Fixpoint forEach {A : Type} (xs : list A) (f : A → M unit) : M unit :=
  match xs with
  | [] => mret tt
  | x :: xs' => f x;; forEach xs' f
  end.

(** [document.getElementById(id)], and the controller fields [this.x] that
    [init] fills with [document.getElementById('x')]: [None] is [null]. *)
Definition getElementById (id : string) : M (option Element.t) := λ w,
  (Normal (document w !! id), w).

(** An assignment [element.attribute = ...] through a reference obtained for
    [id]: a [TypeError] when the reference is [null]. *)
Definition assign (id : string) (f : Element.t → Element.t) : M unit := λ w,
  match document w !! id with
  | Some el => (Normal tt, with_document (<[id := f el]> (document w)) w)
  | None => (Throw TypeError, w)
  end.

(** [if (element) { element.attribute = ... }] *)
Definition assignIfPresent (id : string) (f : Element.t → Element.t) : M unit :=
  el ← getElementById id;
  match el with
  | Some _ => assign id f
  | None => mret tt
  end.

(** [document.getElementById(id).textContent = v] *)
Definition assignText `{Builtins} (id : string) (v : JsValue) : M unit :=
  el ← getElementById id;
  match el with
  | None => throw TypeError
  | Some _ => text ← lift (toTextContent v); assign id (Element.set_textContent text)
  end.

Definition createObjectURL (file : File.t) : M nat := λ w,
  let url := createdURLs w in
  (Normal url,
   mkWorld (document w) (<[url := file]> (objectURLs w)) (S url)
           (revocations w) (requests w) (console w)).

Definition revokeObjectURL (url : nat) : M unit := λ w,
  (Normal tt,
   mkWorld (document w) (delete url (objectURLs w)) (createdURLs w)
           (revocations w ++ [url]) (requests w) (console w)).

Definition console_error (label : string) : M unit := λ w,
  (Normal tt,
   mkWorld (document w) (objectURLs w) (createdURLs w) (revocations w)
           (requests w) (console w ++ [label])).

(** What the network and the server do with one request: the request fails,
    or a response arrives whose body is JSON text for a value, or is not. *)
Inductive ServerReply : Type :=
| RequestFailed
| Responded (body : option JsValue).

(** [await fetch('/upload', {method: 'POST', body: formData})] followed by
    [await response.json()], for a given behaviour of the network. *)
Definition fetchJson (file : File.t) (reply : ServerReply) : M JsValue := λ w,
  let w' := mkWorld (document w) (objectURLs w) (createdURLs w) (revocations w)
                    (requests w ++ [file]) (console w) in
  match reply with
  | RequestFailed => (Throw NetworkFailure, w')
  | Responded None => (Throw SyntaxError, w')
  | Responded (Some v) => (Normal v, w')
  end.

(** ** The controller, [class PitchAnalyzerApp] *)

Section Controller.
Context `{Builtins}.

Definition sectionIds : list string :=
  ["loadingSection"; "resultsSection"; "errorSection"].

Definition hideAllSections : M unit :=
  forEach sectionIds (λ id, assignIfPresent id (Element.set_display "none")).

Definition showLoading : M unit :=
  hideAllSections;;
  assign "loadingSection" (Element.set_display "block").

Definition showError (message : JsValue) : M unit :=
  hideAllSections;;
  assignText "errorMessage" message;;
  assign "errorSection" (Element.set_display "block").

Definition addAudioPlayer (file : File.t) : M unit :=
  assign "audioPlayer" Element.clear_innerHTML;;
  audioURL ← createObjectURL file;
  assign "audioPlayer"
    (Element.appendChild (Audio.mk true "100%" "500px" audioURL [audioURL])).

(** [`${obj.key.toFixed(f)}`] *)
Definition fixedOf (obj : JsValue) (key : string) (f : nat) : M string :=
  v ← lift (getProp obj key);
  lift (callToFixed v f).

(** The condition of line 118. *)
Definition hasStats (stats : JsValue) : M bool :=
  if toBoolean stats
  then n ← lift (keysLength stats); mret (0 <? n)%nat
  else mret false.

(** Lines 110-138, the body of the [try] of [displayResults]. *)
Definition renderResults (result : JsValue) (file : File.t) : M unit :=
  hideAllSections;;
  word ← lift (getProp result "word");
  assignText "wordText" word;;
  phonetic ← lift (getProp result "phonetic");
  assignText "phoneticText" phonetic;;
  stats ← lift (getProp result "stats");
  nonEmpty ← hasStats stats;
  (if nonEmpty : bool then
     mean ← fixedOf stats "mean_pitch" 1;
     assignText "meanPitch" (JString (mean +:+ " Hz"));;
     lo ← fixedOf stats "min_pitch" 1;
     hi ← fixedOf stats "max_pitch" 1;
     assignText "pitchRange" (JString (lo +:+ " - " +:+ hi +:+ " Hz"))
   else
     assignText "meanPitch" (JString "N/A");;
     assignText "pitchRange" (JString "N/A"));;
  seconds ← fixedOf result "duration" 2;
  assignText "duration" (JString (seconds +:+ " 秒"));;
  plotImage ← getElementById "plotImage";
  plot ← lift (getProp result "plot");
  plotText ← lift (toString plot);
  assign "plotImage" (Element.set_src ("data:image/png;base64," +:+ plotText));;
  assign "plotImage" (Element.set_display "block");;
  addAudioPlayer file;;
  assign "resultsSection" (Element.set_display "block").

Definition displayResults (result : JsValue) (file : File.t) : M unit :=
  tryCatch (renderResults result file)
    (λ _, console_error "Results display error:";;
          showError (JString displayErrorMessage)).

(** Lines 71-98, the [try] statement of [handleFileUpload]. *)
Definition upload (file : File.t) (reply : ServerReply) : M unit :=
  tryCatch
    (showLoading;;
     result ← fetchJson file reply;
     success ← lift (getProp result "success");
     if toBoolean success then displayResults result file
     else
       error ← lift (getProp result "error");
       showError (jsOr error (JString unknownErrorMessage)))
    (λ _, console_error "Upload error:";;
          showError (JString networkErrorMessage)).

(** [handleFileUpload(file)], run to its end against the given behaviour
    of the network. *)
Definition handleFileUpload (file : File.t) (reply : ServerReply) : M unit :=
  match fileExtension (File.name file) with
  | None => throw TypeError
  | Some fileExtension =>
      if negb (Str.includes allowedExtensions fileExtension)
      then showError (JString unsupportedFormatMessage)
      else if sizeTooLarge (File.size file)
      then showError (JString fileTooLargeMessage)
      else upload file reply
  end.

(** The ['change'] listener of the file input (lines 21-25); the browser
    has stored the selection [files] in the input before it runs. *)
Definition onChange (files : list File.t) (reply : ServerReply) : M unit :=
  assign "fileInput" (Element.set_files files);;
  match files with
  | file :: _ => handleFileUpload file reply
  | [] => mret tt
  end.

(** The ['drop'] listener of the upload area, lines 42-45. *)
Definition onDrop (files : list File.t) (reply : ServerReply) : M unit :=
  match files with
  | file :: _ => handleFileUpload file reply
  | [] => mret tt
  end.

(** The ['ended'] listeners of an audio element (lines 166-168). *)
Definition onEnded (audio : Audio.t) : M unit :=
  forEach (Audio.onEnded audio) revokeObjectURL.

End Controller.

(** ** [function resetApp()] *)

Definition resetApp : M unit :=
  assign "fileInput" Element.clear_value;;
  forEach ["loadingSection"; "resultsSection"; "errorSection"]
    (λ id, assignIfPresent id (Element.set_display "none"));;
  assignIfPresent "audioPlayer" Element.clear_innerHTML.

(** ** What the user sees *)

Definition present (w : World) (id : string) : Prop := is_Some (document w !! id).

Definition displayOf (w : World) (id : string) : option string :=
  Element.display <$> document w !! id.

Definition textOf (w : World) (id : string) : option string :=
  Element.textContent <$> document w !! id.

Definition childrenOf (w : World) (id : string) : option (list Audio.t) :=
  Element.children <$> document w !! id.

Definition filesOf (w : World) (id : string) : option (list File.t) :=
  Element.files <$> document w !! id.

(** A section is counted as visible unless its inline style hides it. *)
Definition visible (w : World) (id : string) : bool :=
  match document w !! id with
  | Some el => negb (bool_decide (Element.display el = "none"))
  | None => false
  end.

Definition atMostOneVisible (w : World) : Prop :=
  ∀ a b, a ∈ sectionIds → b ∈ sectionIds →
         visible w a = true → visible w b = true → a = b.

Inductive UIState : Type := Idle | Loading | Results | Error.

(** The state the three sections show, if they show one. *)
Definition uiState (w : World) : option UIState :=
  match visible w "loadingSection", visible w "resultsSection",
        visible w "errorSection" with
  | false, false, false => Some Idle
  | true, false, false => Some Loading
  | false, true, false => Some Results
  | false, false, true => Some Error
  | _, _, _ => None
  end.

(** The error view: the error section is shown, alone, with [message]. *)
Definition showsError (w : World) (message : string) : Prop :=
  uiState w = Some Error ∧
  displayOf w "errorSection" = Some "block" ∧
  textOf w "errorMessage" = Some message.

(** The regions of the page the error view needs. *)
Definition errorRegionsPresent (w : World) : Prop :=
  present w "errorMessage" ∧ present w "errorSection".

(** The regions of the page the result view writes to. *)
Definition renderRegionIds : list string :=
  ["wordText"; "phoneticText"; "meanPitch"; "pitchRange"; "duration";
   "plotImage"; "audioPlayer"; "resultsSection"].

Definition renderRegionsPresent (w : World) : Prop :=
  ∀ id, id ∈ renderRegionIds → present w id.

(** An object URL is leaked when the store still holds it although no
    element left in the document can ever revoke it. *)
Definition revocableBy (w : World) (url : nat) : Prop :=
  ∃ id el audio, document w !! id = Some el ∧
                 audio ∈ Element.children el ∧ url ∈ Audio.onEnded audio.

Definition leaked (w : World) (url : nat) : Prop :=
  is_Some (objectURLs w !! url) ∧ ¬ revocableBy w url.

(** ** A program logic for [M]: pre-condition, post-condition of a normal
    end, post-condition of a throw *)

Definition triple {A : Type} (P : World → Prop) (m : M A)
    (Q : A → World → Prop) (E : World → Prop) : Prop :=
  ∀ w, P w → match m w with
              | (Normal a, w') => Q a w'
              | (Throw _, w') => E w'
              end.

(** [I] holds after [m], however [m] ends, when it held before. *)
Definition stable {A : Type} (I : World → Prop) (m : M A) : Prop :=
  triple I m (λ _, I) I.

(** A property of the document alone. *)
Definition onDocument (Φ : gmap string Element.t → Prop) : World → Prop :=
  λ w, Φ (document w).

(** A property of the document that only looks at the element [id]. *)
Definition localAt (id : string) (Φ : gmap string Element.t → Prop) : Prop :=
  ∀ d d', d' !! id = d !! id → Φ d → Φ d'.

Definition Present (id : string) : gmap string Element.t → Prop :=
  λ d, is_Some (d !! id).

Definition Hidden (id : string) : gmap string Element.t → Prop :=
  λ d, ∀ el, d !! id = Some el → Element.display el = "none".

(** ** The vocabulary of the statements: views of the document, examples,
    and the two halves of an upload *)

(** In the words of the specification: the substring after the final [sep],
    and the whole string when it has no [sep]. *)
Fixpoint afterFinal (sep : ascii) (s : string) : string :=
  match s with
  | EmptyString => EmptyString
  | String c s' => if Str.contains sep s then afterFinal sep s' else s
  end.

(** The document after the three sections have been hidden. *)
Definition hideSections (d : gmap string Element.t) : gmap string Element.t :=
  alter (Element.set_display "none") "errorSection"
    (alter (Element.set_display "none") "resultsSection"
      (alter (Element.set_display "none") "loadingSection" d)).

(** Assigning to the element [id] keeps [Φ]. *)
Definition frames (id : string) (Φ : gmap string Element.t → Prop) : Prop :=
  ∀ d el el', d !! id = Some el → Φ d → Φ (<[id := el']> d).

Definition AllHidden (d : gmap string Element.t) : Prop :=
  ∀ id, id ∈ sectionIds → Hidden id d.

(** Every section other than [id] is hidden. *)
Definition HiddenExcept (id : string) (d : gmap string Element.t) : Prop :=
  ∀ other, other ∈ sectionIds → other ≠ id → Hidden other d.

Inductive Operation : Type :=
| DoShowLoading
| DoDisplayResults (result : JsValue) (file : File.t)
| DoShowError (message : JsValue)
| DoResetApp
| DoHandleFileUpload (file : File.t) (reply : ServerReply).

Definition perform `{Builtins} (op : Operation) : M unit :=
  match op with
  | DoShowLoading => showLoading
  | DoDisplayResults result file => displayResults result file
  | DoShowError message => showError message
  | DoResetApp => resetApp
  | DoHandleFileUpload file reply => handleFileUpload file reply
  end.

(** The state after the operations have run one after the other, each to
    its end, be it a return or a throw. *)
Fixpoint performAll `{Builtins} (ops : list Operation) (w : World) : World :=
  match ops with
  | [] => w
  | op :: ops' => performAll ops' (perform op w).2
  end.

Definition errorView (s : string) (d : gmap string Element.t) : gmap string Element.t :=
  alter (Element.set_display "block") "errorSection"
    (alter (Element.set_textContent s) "errorMessage" (hideSections d)).

Definition loadingView (d : gmap string Element.t) : gmap string Element.t :=
  alter (Element.set_display "block") "loadingSection" (hideSections d).

(** An instance of the abstract conversions, to run the controller on
    examples; the examples below reach neither conversion. *)
Definition exampleBuiltins : Builtins :=
  {| Number_toString := λ _, "NaN";
     Object_toString := λ _, Normal "[object Object]" |}.

Definition blankElement : Element.t := Element.mk "" "" "" [] [].

(** A page with every region the script looks up, nothing selected, and no
    inline style set. *)
Definition examplePage : World :=
  mkWorld
    (list_to_map ((λ id, (id, blankElement)) <$>
       ["uploadArea"; "fileInput"; "loadingSection"; "resultsSection";
        "errorSection"; "errorMessage"; "wordText"; "phoneticText";
        "meanPitch"; "pitchRange"; "duration"; "plotImage"; "audioPlayer"]))
    ∅ 0 [] [] [].

Definition exampleFile : File.t := File.mk "clip.WAV" 2048 "RIFF".

(** Everything of the state but the document. *)
Definition outside (w : World) :=
  (objectURLs w, createdURLs w, revocations w, requests w, console w).

Definition failureWith (error : option JsValue) : JsValue :=
  JObject (match error with
           | Some v => <["error" := v]> {["success" := JBool false]}
           | None => {["success" := JBool false]}
           end).

Definition withoutDuration : JsValue :=
  JObject (<["success" := JBool true]> (<["word" := JString "hello"]>
          (<["phonetic" := JString "h@loU"]> {["plot" := JString "iVBORw0KGgo="]}))).

(** What [resetApp] does to the element with a given id. *)
Definition resetElement (id : string) (el : Element.t) : Element.t :=
  if bool_decide (id = "audioPlayer") then Element.clear_innerHTML el
  else if bool_decide (id ∈ sectionIds) then Element.set_display "none" el
  else if bool_decide (id = "fileInput") then Element.clear_value el
  else el.

Definition idleView (d : gmap string Element.t) : gmap string Element.t :=
  alter Element.clear_innerHTML "audioPlayer"
    (hideSections (alter Element.clear_value "fileInput" d)).

(** In the words of the specification: the texts of the mean-pitch and
    pitch-range fields for a response's [stats]: the placeholder when
    [stats] is absent, [null] or an empty mapping, and otherwise the values
    to one decimal place with the unit. *)
Inductive pitchTexts `{Builtins} : option JsValue → string → string → Prop :=
| pitch_absent : pitchTexts None "N/A" "N/A"
| pitch_null : pitchTexts (Some JNull) "N/A" "N/A"
| pitch_empty : pitchTexts (Some (JObject ∅)) "N/A" "N/A"
| pitch_given stats mean lo hi :
    stats !! "mean_pitch" = Some (JNumber mean) →
    stats !! "min_pitch" = Some (JNumber lo) →
    stats !! "max_pitch" = Some (JNumber hi) →
    pitchTexts (Some (JObject stats))
      (Num.toFixed mean 1 +:+ " Hz")
      (Num.toFixed lo 1 +:+ " - " +:+ Num.toFixed hi 1 +:+ " Hz").

(** The document once a response has been rendered. *)
Definition resultsView (word phonetic mean range seconds plot : string)
    (audio : Audio.t) (d : gmap string Element.t) : gmap string Element.t :=
  alter (Element.set_display "block") "resultsSection"
    (alter (Element.appendChild audio) "audioPlayer"
      (alter Element.clear_innerHTML "audioPlayer"
        (alter (Element.set_display "block") "plotImage"
          (alter (Element.set_src ("data:image/png;base64," +:+ plot)) "plotImage"
            (alter (Element.set_textContent (seconds +:+ " 秒")) "duration"
              (alter (Element.set_textContent range) "pitchRange"
                (alter (Element.set_textContent mean) "meanPitch"
                  (alter (Element.set_textContent phonetic) "phoneticText"
                    (alter (Element.set_textContent word) "wordText"
                      (hideSections d)))))))))).

Definition isDigit (c : ascii) : bool :=
  let n := N_of_ascii c in ((48 <=? n) && (n <=? 57))%N.

Fixpoint allDigits (s : string) : bool :=
  match s with
  | EmptyString => true
  | String c s' => isDigit c && allDigits s'
  end.

(** The numbers [toFixed] writes in fixed notation: the finite ones of
    magnitude below [10^21]. *)
Definition fixedNotation (x : spec_float) : bool :=
  match x with
  | S754_zero _ => true
  | S754_finite _ m e => negb (Num.atLeast1e21 m e)
  | S754_infinity _ | S754_nan => false
  end.

(** The binary64 numbers nearest to 220.456, 150.0, 300.25 and 1.5. *)
Definition double_220_456 : spec_float := S754_finite false 7756605933215547 (-45).

Definition double_150 : spec_float := S754_finite false 5277655813324800 (-45).

Definition double_300_25 : spec_float := S754_finite false 5282053859835904 (-44).

Definition double_1_5 : spec_float := S754_finite false 6755399441055744 (-52).

Definition exampleStats : gmap string JsValue :=
  <["mean_pitch" := JNumber double_220_456]>
    (<["min_pitch" := JNumber double_150]> {["max_pitch" := JNumber double_300_25]}).

Definition exampleResponse : gmap string JsValue :=
  <["success" := JBool true]> (<["word" := JString "hello"]>
    (<["phonetic" := JString "h@loU"]> (<["duration" := JNumber double_1_5]>
      (<["plot" := JString "iVBORw0KGgo="]> {["stats" := JObject exampleStats]})))).

(** ** [Number::toString]

    The decimal text of a binary64 number: the fewest digits that read back
    as the same number and, among those, the digits closest to it, as the
    standard recommends; written without an exponent for a value below
    [10^21] and not below [10^-6], and with one otherwise. *)

Module NumberToString.

(** Magnitudes are counted in units of [2^-1076], in which a binary64
    number, and the midpoint between two of them, is a whole number. *)
Definition one : Z := 2 ^ 1076.

Definition inUnits (m : positive) (e : Z) : Z := Z.shiftl (Z.pos m) (e + 1076).

(** The binary exponent of the gap between the binary64 numbers around
    [m * 2^e]: 52 below the exponent of its leading bit, and [-1074] from
    the subnormal numbers down. *)
Definition gapExponent (m : positive) (e : Z) : Z :=
  Z.max (Z.log2 (Z.pos m) + e - 52) (-1074).

(** The numbers that round to [x = m * 2^e]: those from [low] to [high],
    the two ends included when the significand of [x] is even.  [high] is
    half a gap above [x]; [low] is half a gap below it, and a quarter of
    that gap when [x] is a power of two above the subnormal numbers, below
    which the numbers are twice as dense. *)
Record Rounding : Type := {
  low : Z;
  exact : Z;
  high : Z;
  closed : bool
}.

Definition rounding (m : positive) (e : Z) : Rounding :=
  let x := inUnits m e in
  let g := gapExponent m e in
  let half := (2 ^ (g + 1075))%Z in
  let significand := (x / 2 ^ (g + 1076))%Z in
  let below := if ((significand =? 2 ^ 52) && (-1074 <? g))%Z
               then (half / 2)%Z else half in
  {| low := x - below; exact := x; high := x + half;
     closed := Z.even significand |}.

(** [s * 10^p], and the bounds it is compared with, as whole numbers: for a
    negative [p] the bounds are multiplied by [10^-p] instead. *)
Definition candidate (s p : Z) : Z :=
  (if (0 <=? p)%Z then s * 10 ^ p * one else s * one)%Z.

Definition bound (b p : Z) : Z :=
  (if (0 <=? p)%Z then b else b * 10 ^ (- p))%Z.

(** [s * 10^p] rounds to [x]. *)
Definition readsBack (r : Rounding) (s p : Z) : bool :=
  if closed r
  then ((bound (low r) p <=? candidate s p) && (candidate s p <=? bound (high r) p))%Z
  else ((bound (low r) p <? candidate s p) && (candidate s p <? bound (high r) p))%Z.

(** The number of decimal digits of a positive whole number. *)
Definition digits (n : Z) : Z := Z.of_nat (String.length (pretty (Z.to_N n))).

(** The decimal exponent of the leading digit of [x]: the [l] with
    [10^l <= x < 10^(l+1)]. *)
Definition leadingExponent (x : Z) : Z :=
  (if one <=? x then digits (x / one) - 1 else - digits ((one - 1) / x))%Z.

(** The whole part of [x / 10^p]. *)
Definition truncated (x p : Z) : Z :=
  (if 0 <=? p then x / (10 ^ p * one) else x * 10 ^ (- p) / one)%Z.

(** Of [s * 10^p] and [(s + 1) * 10^p], with [x] between the two, the one
    closer to [x], and the even one when they are equally close. *)
Definition closer (r : Rounding) (s p : Z) : Z :=
  let under := (bound (exact r) p - candidate s p)%Z in
  let over := (candidate (s + 1) p - bound (exact r) p)%Z in
  if (under <? over)%Z then s
  else if (over <? under)%Z then (s + 1)%Z
  else if Z.even s then s else (s + 1)%Z.

(** The digits [s] and the exponent [p] of step 5: for [k = 1, 2, ...]
    digits in turn, the two [k]-digit multiples of [10^p] around [x] are
    tried, and the first [k] for which one of them reads back as [x] gives
    the result.  17 digits always read back. *)
Fixpoint shortest (r : Rounding) (l : Z) (k : nat) (more : nat) : Z * Z :=
  let p := (l - Z.of_nat k + 1)%Z in
  let s := truncated (exact r) p in
  match more with
  | O => (s, p)
  | S more' =>
      match readsBack r s p, readsBack r (s + 1) p with
      | true, true => (closer r s p, p)
      | true, false => (s, p)
      | false, true => ((s + 1)%Z, p)
      | false, false => shortest r l (S k) more'
      end
  end.

(** The digits of [s] without zeros at the end. *)
Fixpoint significant (s : string) : string :=
  match s with
  | EmptyString => EmptyString
  | String c s' =>
      match significant s' with
      | EmptyString => if Ascii.eqb c "0" then EmptyString else String c EmptyString
      | rest => String c rest
      end
  end.

(** Steps 6 to 10: the text for the digits [ds], [k] of them, of a value
    below [10^n] and not below [10^(n-1)]. *)
Definition written (ds : string) (n : Z) : string :=
  let k := Z.of_nat (String.length ds) in
  if ((-5 <=? n) && (n <=? 21))%Z then
    if (k <=? n)%Z then ds +:+ Str.zeros (Z.to_nat (n - k))
    else if (0 <? n)%Z
    then substring 0 (Z.to_nat n) ds +:+ "." +:+
         substring (Z.to_nat n) (Z.to_nat (k - n)) ds
    else "0." +:+ Str.zeros (Z.to_nat (- n)) +:+ ds
  else
    let exponent := (if (0 <=? n - 1)%Z then "+" else "-") +:+
                    pretty (Z.to_N (Z.abs (n - 1))) in
    if (k =? 1)%Z then ds +:+ "e" +:+ exponent
    else substring 0 1 ds +:+ "." +:+ substring 1 (Z.to_nat (k - 1)) ds +:+
         "e" +:+ exponent.

Definition magnitude (m : positive) (e : Z) : string :=
  let r := rounding m e in
  let '(s, p) := shortest r (leadingExponent (exact r)) 1 17 in
  let ds := pretty (Z.to_N s) in
  written (significant ds) (p + Z.of_nat (String.length ds)).

Definition toString (x : spec_float) : string :=
  match x with
  | S754_nan => "NaN"
  | S754_zero _ => "0"
  | S754_infinity false => "Infinity"
  | S754_infinity true => "-Infinity"
  | S754_finite s m e => (if s then "-" else "") +:+ magnitude m e
  end.

End NumberToString.

(** The conversions with [Number::toString] as the language defines it; the
    example that uses them converts no object. *)
Definition standardNumbers : Builtins :=
  {| Number_toString := NumberToString.toString;
     Object_toString := @Object_toString exampleBuiltins |}.

(** The binary64 number [10^21]. *)
Definition double_1e21 : spec_float := S754_finite false 7629394531250000 17.

(** The example response for a recording of [10^21] seconds. *)
Definition longestResponse : gmap string JsValue :=
  <["duration" := JNumber double_1e21]> exampleResponse.

(** No element but the audio player region holds audio elements. *)
Definition audiosOnlyInPlayer (w : World) : Prop :=
  ∀ id el, document w !! id = Some el → id ≠ "audioPlayer" → Element.children el = [].

Definition secondFile : File.t := File.mk "take2.mp3" 4096 "ID3".

Definition pageWithoutLoading : World :=
  with_document (delete "loadingSection" (document examplePage)) examplePage.

Definition settled (w : World) : Prop :=
  uiState w = Some Results ∨ uiState w = Some Error.

Definition ErrorRegions (d : gmap string Element.t) : Prop :=
  Present "errorMessage" d ∧ Present "errorSection" d.

Definition pageWithoutErrorMessage : World :=
  with_document (delete "errorMessage" (document examplePage)) examplePage.

(** A property of the state that does not look at the document. *)
Definition documentBlind (J : World → Prop) : Prop :=
  ∀ d w, J w → J (with_document d w).

(** The state outside the document and the console, relative to the state
    before an upload of [file], when the store was [urls], [created] URLs
    had been created, [revoked] were the revocations and [sent] the
    requests: [url] tells whether the object URL for [file] has been
    created, [request] whether the request has been sent. *)
Definition phase (file : File.t) (urls : gmap nat File.t) (created : nat)
    (revoked : list nat) (sent : list File.t) (url request : bool) (w : World) : Prop :=
  revocations w = revoked ∧
  requests w = (if request then sent ++ [file] else sent)%list ∧
  objectURLs w = (if url then <[created := file]> urls else urls) ∧
  createdURLs w = (if url then S created else created).

Definition anyPhase (file : File.t) (urls : gmap nat File.t) (created : nat)
    (revoked : list nat) (sent : list File.t) (w : World) : Prop :=
  ∃ url request, phase file urls created revoked sent url request w.

Definition NoPlayer (d : gmap string Element.t) : Prop := d !! "audioPlayer" = None.

(** No player region, and the results section hidden. *)
Definition NoResults (d : gmap string Element.t) : Prop :=
  NoPlayer d ∧ Hidden "resultsSection" d.

(** No URL created yet for [file], no player region, results hidden. *)
Definition unplayable (file : File.t) (urls : gmap nat File.t) (created : nat)
    (revoked : list nat) (sent : list File.t) (request : bool) (w : World) : Prop :=
  onDocument NoResults w ∧ phase file urls created revoked sent false request w.

Definition unplayableAny (file : File.t) (urls : gmap nat File.t) (created : nat)
    (revoked : list nat) (sent : list File.t) (w : World) : Prop :=
  ∃ request, unplayable file urls created revoked sent request w.

Definition pageWithoutPlayer : World :=
  with_document (delete "audioPlayer" (document examplePage)) examplePage.

(** [handleFileUpload] around its first [await].  An [async] function runs
    up to its first [await], and the rest runs when the awaited promise
    settles; other handlers may run in between.  The two awaits of the
    function (the response, then its JSON body) are taken together, as in
    [fetchJson]. *)

(** The call [fetch('/upload', ...)]: the request leaves. *)
Definition sendRequest (file : File.t) : M unit := λ w,
  (Normal tt,
   mkWorld (document w) (objectURLs w) (createdURLs w) (revocations w)
           (requests w ++ [file]) (console w)).

(** What the two awaits deliver: the JSON value, or a rejection. *)
Definition receiveJson (reply : ServerReply) : M JsValue :=
  lift (match reply with
        | RequestFailed => Throw NetworkFailure
        | Responded None => Throw SyntaxError
        | Responded (Some v) => Normal v
        end).

Section AwaitModel.
Context `{Builtins}.

(** Lines 54-83: [handleFileUpload] up to its first [await].  The result is
    [true] when the function is now suspended with a request in flight. *)
Definition startUpload (file : File.t) : M bool :=
  match fileExtension (File.name file) with
  | None => throw TypeError
  | Some fileExtension =>
      if negb (Str.includes allowedExtensions fileExtension)
      then showError (JString unsupportedFormatMessage);; mret false
      else if sizeTooLarge (File.size file)
      then showError (JString fileTooLargeMessage);; mret false
      else tryCatch
             (showLoading;; sendRequest file;; mret true)
             (λ _, console_error "Upload error:";;
                   showError (JString networkErrorMessage);; mret false)
  end.

(** Lines 80-98: the rest of [handleFileUpload], run when the response has
    arrived or the request has failed. *)
Definition resumeUpload (file : File.t) (reply : ServerReply) : M unit :=
  tryCatch
    (result ← receiveJson reply;
     success ← lift (getProp result "success");
     if toBoolean success then displayResults result file
     else
       error ← lift (getProp result "error");
       showError (jsOr error (JString unknownErrorMessage)))
    (λ _, console_error "Upload error:";;
          showError (JString networkErrorMessage)).

End AwaitModel.

Definition exampleResponseB : gmap string JsValue :=
  <["word" := JString "world"]> exampleResponse.

(** The class list of an element, a list of distinct tokens:
    [classList.add] appends a token that is not there yet, and
    [classList.remove] takes a token out. *)
Module ClassList.
Definition add (token : string) (classes : list string) : list string :=
  if bool_decide (token ∈ classes) then classes else classes ++ [token].
Definition remove (token : string) (classes : list string) : list string :=
  filter (λ c, c ≠ token) classes.
End ClassList.

(** The drag events the upload area listens to. *)
Inductive DragEvent : Type := DragOver | DragLeave | DragDrop.

(** What each listener does to the class list of the upload area; the
    ['drop'] listener goes on with [onDrop]. *)
Definition dragListener (classes : list string) (event : DragEvent) : list string :=
  match event with
  | DragOver => ClassList.add "dragover" classes
  | DragLeave | DragDrop => ClassList.remove "dragover" classes
  end.

(** [v.key] is a number. *)
Definition numericAt (v : JsValue) (key : string) : Prop :=
  ∃ x, getProp v key = Normal (JNumber x).

(** The condition of line 118 holds for [stats]. *)
Definition statsFilled (stats : JsValue) : Prop :=
  toBoolean stats = true ∧ ∃ n, keysLength stats = Normal (S n).

Definition withoutMinPitch : JsValue :=
  JObject (<["stats" := JObject {["mean_pitch" := JNumber double_220_456]}]>
             exampleResponse).

Section Logic.
Context {A B : Type}.
Implicit Types (P I : World → Prop).

Lemma triple_bind P (m : M A) (k : A → M B) Q R E :
  triple P m Q E → (∀ a, triple (Q a) (k a) R E) → triple P (m ≫= k) R E.
Proof.
  intros Hm Hk w HP. specialize (Hm w HP).
  unfold mbind, M_bind. destruct (m w) as [[a|e] w']; [|done].
  by apply Hk.
Qed.

Lemma triple_weaken P P' (m : M A) (Q Q' : A → World → Prop) (E E' : World → Prop) :
  triple P' m Q' E' → (∀ w, P w → P' w) → (∀ a w, Q' a w → Q a w) →
  (∀ w, E' w → E w) → triple P m Q E.
Proof.
  intros Hm HP HQ HE w Hw. specialize (Hm w (HP w Hw)).
  destruct (m w) as [[a|e] w']; auto.
Qed.

Lemma triple_tryCatch P (body : M A) handler Q E E' :
  triple P body Q E' → (∀ e, triple E' (handler e) Q E) →
  triple P (tryCatch body handler) Q E.
Proof.
  intros Hb Hh w HP. specialize (Hb w HP). unfold tryCatch.
  destruct (body w) as [[a|e] w']; [done|]. by apply Hh.
Qed.

Lemma stable_bind I (m : M A) (k : A → M B) :
  stable I m → (∀ a, stable I (k a)) → stable I (m ≫= k).
Proof. intros Hm Hk. eapply triple_bind; [exact Hm|exact Hk]. Qed.

Lemma stable_tryCatch I (body : M A) handler :
  stable I body → (∀ e, stable I (handler e)) → stable I (tryCatch body handler).
Proof. intros Hb Hh. eapply triple_tryCatch; [exact Hb|exact Hh]. Qed.

Lemma stable_ret I (a : A) : stable I (mret a).
Proof. by intros w HI. Qed.

Lemma stable_throw I e : stable I (throw (A:=A) e).
Proof. by intros w HI. Qed.

Lemma stable_lift I (c : Completion A) : stable I (lift c).
Proof. intros w HI. unfold lift. by destruct c. Qed.

End Logic.

(** A property that holds once [P] does and is kept by [m] holds after [m]. *)
Lemma stable_from {A : Type} (P I : World → Prop) (m : M A) :
  stable I m → (∀ w, P w → I w) → triple P m (λ _, I) I.
Proof. intros Hm HP. eapply triple_weaken; [exact Hm|exact HP|done|done]. Qed.

Lemma stable_forEach {A : Type} (I : World → Prop) (xs : list A) (f : A → M unit) :
  (∀ x, stable I (f x)) → stable I (forEach xs f).
Proof.
  intros Hf. induction xs as [|x xs IH]; simpl.
  - apply stable_ret.
  - apply stable_bind; [apply Hf|intros _; apply IH].
Qed.

(** ** Facts about [split] and the derived extension *)

Lemma split_not_nil sep s : Str.split sep s ≠ [].
Proof.
  destruct s as [|c s]; simpl; [done|].
  destruct (Ascii.eqb c sep); [done|].
  by destruct (Str.split sep s).
Qed.

Lemma split_without sep s : Str.contains sep s = false → Str.split sep s = [s].
Proof.
  induction s as [|c s IH]; simpl; [done|].
  intros Hc. apply orb_false_iff in Hc as [Hc Hs].
  by rewrite Hc, (IH Hs).
Qed.

Lemma afterFinal_without sep s : Str.contains sep s = false → afterFinal sep s = s.
Proof. destruct s as [|c s]; simpl; [done|]. by intros ->. Qed.

Lemma split_with sep s :
  Str.contains sep s = true → ∃ p q qs, Str.split sep s = p :: q :: qs.
Proof.
  induction s as [|c s IH]; simpl; [done|].
  destruct (Ascii.eqb c sep); simpl.
  - intros _. destruct (Str.split sep s) as [|q qs] eqn:E; [by destruct (split_not_nil sep s)|].
    by exists EmptyString, q, qs.
  - intros Hs. destruct (IH Hs) as (p & q & qs & ->). by exists (String c p), q, qs.
Qed.

Lemma pop_split sep s : Str.pop (Str.split sep s) = Some (afterFinal sep s).
Proof.
  unfold Str.pop. induction s as [|c s IH]; [done|].
  cbn [Str.split afterFinal Str.contains].
  destruct (Ascii.eqb c sep) eqn:Hc; cbn [orb].
  - destruct (Str.split sep s) as [|q qs] eqn:E; [by destruct (split_not_nil sep s)|].
    by rewrite last_cons_cons.
  - destruct (Str.contains sep s) eqn:Hs.
    + destruct (split_with sep s Hs) as (p & q & qs & E).
      rewrite E in IH |- *. by rewrite !last_cons_cons in IH |- *.
    + by rewrite (split_without sep s Hs).
Qed.

Lemma contains_app sep s t :
  Str.contains sep (s +:+ t) = Str.contains sep s || Str.contains sep t.
Proof. induction s as [|c s IH]; simpl; [done|]. by rewrite IH, orb_assoc. Qed.

Lemma afterFinal_app sep pre ext :
  Str.contains sep ext = false → afterFinal sep (pre +:+ String sep ext) = ext.
Proof.
  intros Hext. induction pre as [|c pre IH].
  - simpl. rewrite Ascii.eqb_refl. simpl. by apply afterFinal_without.
  - simpl. rewrite contains_app. simpl.
    rewrite Ascii.eqb_refl, orb_true_r, orb_true_r. exact IH.
Qed.

Lemma fileExtension_afterFinal name :
  fileExtension name = Some (Str.toLowerCase (afterFinal "." name)).
Proof. unfold fileExtension. by rewrite pop_split. Qed.

Lemma extensionAllowed_iff name :
  extensionAllowed name = true ↔
  Str.toLowerCase (afterFinal "." name) ∈ allowedExtensions.
Proof.
  unfold extensionAllowed. rewrite fileExtension_afterFinal.
  unfold Str.includes. by rewrite bool_decide_eq_true.
Qed.

Lemma sizeTooLarge_iff size : sizeTooLarge size = true ↔ (16 * 1024 * 1024 < size)%N.
Proof. unfold sizeTooLarge. apply N.ltb_lt. Qed.

Lemma sizeTooLarge_false size : sizeTooLarge size = false ↔ (size ≤ 16 * 1024 * 1024)%N.
Proof. unfold sizeTooLarge. apply N.ltb_ge. Qed.

(** ** The primitives, step by step *)

Lemma with_document_same w : with_document (document w) w = w.
Proof. by destruct w. Qed.

Lemma insert_as_alter (d : gmap string Element.t) id el f :
  d !! id = Some el → <[id := f el]> d = alter f id d.
Proof.
  intros Hel. apply map_eq. intros j.
  destruct (decide (id = j)) as [<-|Hne].
  - by rewrite lookup_insert_eq, lookup_alter_eq, Hel.
  - by rewrite lookup_insert_ne, lookup_alter_ne.
Qed.

Lemma alter_absent (d : gmap string Element.t) id f :
  d !! id = None → alter f id d = d.
Proof.
  intros Hno. apply map_eq. intros j.
  destruct (decide (id = j)) as [<-|Hne].
  - by rewrite lookup_alter_eq, Hno.
  - by rewrite lookup_alter_ne.
Qed.

Lemma bind_normal {A B} (m : M A) (k : A → M B) w a w' r :
  m w = (Normal a, w') → k a w' = r → (m ≫= k) w = r.
Proof. intros Hm Hk. unfold mbind, M_bind. by rewrite Hm. Qed.

Lemma bind_throw {A B} (m : M A) (k : A → M B) w e w' :
  m w = (Throw e, w') → (m ≫= k) w = (Throw e, w').
Proof. intros Hm. unfold mbind, M_bind. by rewrite Hm. Qed.

Lemma assign_normal id f w el :
  document w !! id = Some el →
  assign id f w = (Normal tt, with_document (<[id := f el]> (document w)) w).
Proof. intros Hel. unfold assign. by rewrite Hel. Qed.

Lemma assign_null id f w :
  document w !! id = None → assign id f w = (Throw TypeError, w).
Proof. intros Hel. unfold assign. by rewrite Hel. Qed.

Lemma assignIfPresent_alter id f w :
  assignIfPresent id f w = (Normal tt, with_document (alter f id (document w)) w).
Proof.
  unfold assignIfPresent, getElementById, mbind, M_bind.
  destruct (document w !! id) as [el|] eqn:Hel.
  - by rewrite (assign_normal _ _ _ _ Hel), (insert_as_alter _ _ _ _ Hel).
  - unfold mret, M_ret. by rewrite (alter_absent _ _ _ Hel), with_document_same.
Qed.

Lemma forEach_sections_alter w :
  forEach sectionIds (λ id, assignIfPresent id (Element.set_display "none")) w
  = (Normal tt, with_document (hideSections (document w)) w).
Proof.
  unfold sectionIds, hideSections. cbn [forEach].
  eapply bind_normal; [apply assignIfPresent_alter|].
  eapply bind_normal; [apply assignIfPresent_alter|].
  eapply bind_normal; [apply assignIfPresent_alter|].
  by destruct w.
Qed.

Lemma hideAllSections_alter w :
  hideAllSections w = (Normal tt, with_document (hideSections (document w)) w).
Proof. apply forEach_sections_alter. Qed.

Lemma sectionIds_cases id :
  id ∈ sectionIds ↔
  id = "loadingSection" ∨ id = "resultsSection" ∨ id = "errorSection".
Proof. unfold sectionIds. rewrite !elem_of_cons, elem_of_nil. tauto. Qed.

Lemma hideSections_other d id :
  id ∉ sectionIds → hideSections d !! id = d !! id.
Proof.
  rewrite sectionIds_cases. intros Hid. unfold hideSections.
  rewrite !lookup_alter_ne; [done|intros <-; tauto..].
Qed.

Lemma hideSections_section d id :
  id ∈ sectionIds → hideSections d !! id = Element.set_display "none" <$> d !! id.
Proof.
  rewrite sectionIds_cases. unfold hideSections. intros [-> | [-> | ->]].
  - by rewrite !lookup_alter_ne, lookup_alter_eq by done.
  - by rewrite lookup_alter_ne, lookup_alter_eq, lookup_alter_ne by done.
  - by rewrite lookup_alter_eq, !lookup_alter_ne by done.
Qed.

Lemma hideSections_present d id : is_Some (hideSections d !! id) ↔ is_Some (d !! id).
Proof.
  destruct (decide (id ∈ sectionIds)) as [Hin|Hout].
  - rewrite (hideSections_section _ _ Hin). apply fmap_is_Some.
  - by rewrite (hideSections_other _ _ Hout).
Qed.

Lemma hideSections_hidden d id : id ∈ sectionIds → Hidden id (hideSections d).
Proof.
  intros Hin el. rewrite (hideSections_section _ _ Hin).
  destruct (d !! id); simpl; [|done]. by intros [= <-].
Qed.

(** ** Properties that assignments leave alone *)

Lemma frames_localAt id id0 Φ : localAt id0 Φ → id ≠ id0 → frames id Φ.
Proof. intros Hloc Hne d el el' _. apply Hloc. by rewrite lookup_insert_ne. Qed.

Lemma frames_Present id id0 : frames id (Present id0).
Proof.
  intros d el el' Hel. unfold Present. rewrite lookup_insert_is_Some.
  destruct (decide (id = id0)); auto.
Qed.

Lemma frames_and id (Φ Ψ : gmap string Element.t → Prop) :
  frames id Φ → frames id Ψ → frames id (λ d, Φ d ∧ Ψ d).
Proof. intros HΦ HΨ d el el' Hel [? ?]. split; [by eapply HΦ|by eapply HΨ]. Qed.

Lemma localAt_Hidden id : localAt id (Hidden id).
Proof. intros d d' Heq Hd el. rewrite Heq. apply Hd. Qed.

Lemma localAt_Present id : localAt id (Present id).
Proof. intros d d' Heq. unfold Present. by rewrite Heq. Qed.

Lemma stable_assign id f Φ : frames id Φ → stable (onDocument Φ) (assign id f).
Proof.
  intros Hfr w HΦ. unfold assign.
  destruct (document w !! id) as [el|] eqn:Hel; [|done].
  unfold onDocument. simpl. by eapply Hfr.
Qed.

Lemma stable_getElementById id (I : World → Prop) : stable I (getElementById id).
Proof. by intros w HI. Qed.

Lemma stable_assignIfPresent id f Φ :
  frames id Φ → stable (onDocument Φ) (assignIfPresent id f).
Proof.
  intros Hfr. unfold assignIfPresent.
  apply stable_bind; [apply stable_getElementById|].
  intros [el|]; [by apply stable_assign|apply stable_ret].
Qed.

Lemma stable_assignText `{Builtins} id v Φ :
  frames id Φ → stable (onDocument Φ) (assignText id v).
Proof.
  intros Hfr. unfold assignText.
  apply stable_bind; [apply stable_getElementById|].
  intros [el|]; [|apply stable_throw].
  apply stable_bind; [apply stable_lift|]. intros text. by apply stable_assign.
Qed.

(** Code that does not write to the document keeps every property of it. *)
Lemma stable_same_document {A} (m : M A) Φ :
  (∀ w, document (m w).2 = document w) → stable (onDocument Φ) m.
Proof.
  intros Hsame w HΦ. specialize (Hsame w). unfold onDocument in *.
  destruct (m w) as [[a|e] w']; simpl in Hsame; by rewrite Hsame.
Qed.

Lemma stable_createObjectURL file Φ : stable (onDocument Φ) (createObjectURL file).
Proof. by apply stable_same_document. Qed.

Lemma stable_revokeObjectURL url Φ : stable (onDocument Φ) (revokeObjectURL url).
Proof. by apply stable_same_document. Qed.

Lemma stable_console_error label Φ : stable (onDocument Φ) (console_error label).
Proof. by apply stable_same_document. Qed.

Lemma stable_fetchJson file reply Φ : stable (onDocument Φ) (fetchJson file reply).
Proof. apply stable_same_document. intros w. by destruct reply as [|[v|]]. Qed.

(** Walks through a controller method statement by statement; what is left
    are the [frames] conditions of its assignments. *)
Ltac stable_step :=
  lazymatch goal with
  | |- stable _ (mret _) => apply stable_ret
  | |- stable _ (throw _) => apply stable_throw
  | |- stable _ (lift _) => apply stable_lift
  | |- stable _ (getElementById _) => apply stable_getElementById
  | |- stable _ (createObjectURL _) => apply stable_createObjectURL
  | |- stable _ (revokeObjectURL _) => apply stable_revokeObjectURL
  | |- stable _ (console_error _) => apply stable_console_error
  | |- stable _ (fetchJson _ _) => apply stable_fetchJson
  | |- stable _ (assign _ _) => apply stable_assign
  | |- stable _ (assignIfPresent _ _) => apply stable_assignIfPresent
  | |- stable _ (assignText _ _) => apply stable_assignText
  | |- stable _ (forEach _ _) => apply stable_forEach; intros ?; cbv beta
  | |- stable _ (tryCatch _ _) => apply stable_tryCatch; [|intros ?; cbv beta]
  | |- stable _ (mbind _ _) => apply stable_bind; [|intros ?; cbv beta]
  | |- stable _ (if ?b then _ else _) => destruct b
  | |- stable _ (match ?x with _ => _ end) => destruct x
  end.

Ltac stable_steps := repeat stable_step.

Ltac frames_steps :=
  repeat first
    [ apply frames_Present
    | apply frames_and
    | apply frames_localAt; [first [apply localAt_Hidden|apply localAt_Present]|done] ].

Section Stability.
Context `{Builtins}.
Variable Φ : gmap string Element.t → Prop.

(** Nothing in the script adds or removes an identified element, so a
    property kept by every assignment is kept by every method. *)
Hypothesis frames_all : ∀ id, frames id Φ.

Lemma stable_hideAllSections : stable (onDocument Φ) hideAllSections.
Proof. unfold hideAllSections. stable_steps. apply frames_all. Qed.

Lemma stable_showLoading : stable (onDocument Φ) showLoading.
Proof. unfold showLoading, hideAllSections. stable_steps; apply frames_all. Qed.

Lemma stable_showError message : stable (onDocument Φ) (showError message).
Proof. unfold showError, hideAllSections. stable_steps; apply frames_all. Qed.

Lemma stable_addAudioPlayer file : stable (onDocument Φ) (addAudioPlayer file).
Proof. unfold addAudioPlayer. stable_steps; apply frames_all. Qed.

Lemma stable_renderResults result file :
  stable (onDocument Φ) (renderResults result file).
Proof.
  unfold renderResults, hideAllSections, addAudioPlayer, fixedOf, hasStats.
  stable_steps; apply frames_all.
Qed.

Lemma stable_displayResults result file :
  stable (onDocument Φ) (displayResults result file).
Proof.
  unfold displayResults. apply stable_tryCatch; [apply stable_renderResults|].
  intros e. apply stable_bind; [apply stable_console_error|].
  intros _. apply stable_showError.
Qed.

Lemma stable_upload file reply : stable (onDocument Φ) (upload file reply).
Proof.
  unfold upload. apply stable_tryCatch.
  - apply stable_bind; [apply stable_showLoading|]. intros _.
    apply stable_bind; [apply stable_fetchJson|]. intros result.
    apply stable_bind; [apply stable_lift|]. intros success.
    destruct (toBoolean success); [apply stable_displayResults|].
    apply stable_bind; [apply stable_lift|]. intros error. apply stable_showError.
  - intros e. apply stable_bind; [apply stable_console_error|].
    intros _. apply stable_showError.
Qed.

Lemma stable_handleFileUpload file reply :
  stable (onDocument Φ) (handleFileUpload file reply).
Proof.
  unfold handleFileUpload.
  destruct (fileExtension (File.name file)); [|apply stable_throw].
  destruct (negb _); [apply stable_showError|].
  destruct (sizeTooLarge _); [apply stable_showError|apply stable_upload].
Qed.

Lemma stable_resetApp : stable (onDocument Φ) resetApp.
Proof. unfold resetApp. stable_steps; apply frames_all. Qed.
End Stability.

(** ** Section visibility *)

Lemma AllHidden_except id d : AllHidden d → HiddenExcept id d.
Proof. intros Hall other Hin _. by apply Hall. Qed.

Lemma visible_not_Hidden w id :
  visible w id = true → Hidden id (document w) → False.
Proof.
  unfold visible, Hidden. destruct (document w !! id) as [el|]; [|done].
  intros Hvis Hhid. rewrite (Hhid el eq_refl) in Hvis. by vm_compute in Hvis.
Qed.

Lemma Hidden_not_visible w id : Hidden id (document w) → visible w id = false.
Proof.
  intros Hhid. destruct (visible w id) eqn:Hvis; [|done].
  destruct (visible_not_Hidden w id Hvis Hhid).
Qed.

Lemma HiddenExcept_atMostOne w id :
  HiddenExcept id (document w) → atMostOneVisible w.
Proof.
  intros Hex a b Ha Hb Hva Hvb.
  destruct (decide (a = id)) as [->|Hna];
    [|destruct (visible_not_Hidden w a Hva (Hex a Ha Hna))].
  destruct (decide (b = id)) as [->|Hnb]; [done|].
  destruct (visible_not_Hidden w b Hvb (Hex b Hb Hnb)).
Qed.

Lemma frames_HiddenExcept id' id :
  (id' ∈ sectionIds → id' = id) → frames id' (HiddenExcept id).
Proof.
  intros Hsame d el el' Hel Hex other Hin Hne.
  assert (id' ≠ other) as Hother by (intros ->; auto).
  intros el0. rewrite lookup_insert_ne by done. by apply Hex.
Qed.

Lemma hideAllSections_hides (P : World → Prop) (E : World → Prop) :
  triple P hideAllSections (λ _, onDocument AllHidden) E.
Proof.
  intros w _. rewrite hideAllSections_alter. unfold onDocument. simpl.
  intros id Hin. by apply hideSections_hidden.
Qed.

Ltac not_a_section :=
  let Hin := fresh in
  intros Hin; apply sectionIds_cases in Hin;
  first [done | by destruct Hin as [?|[?|?]]].

Section Visibility.
Context `{Builtins}.

Lemma showLoading_exclusive :
  triple (λ _, True) showLoading
    (λ _, onDocument (HiddenExcept "loadingSection"))
    (onDocument (HiddenExcept "loadingSection")).
Proof.
  unfold showLoading.
  eapply triple_bind; [apply hideAllSections_hides|]. intros [].
  apply stable_from; [|intros w; apply AllHidden_except].
  by apply stable_assign, frames_HiddenExcept.
Qed.

Lemma showError_exclusive message :
  triple (λ _, True) (showError message)
    (λ _, onDocument (HiddenExcept "errorSection"))
    (onDocument (HiddenExcept "errorSection")).
Proof.
  unfold showError.
  eapply triple_bind; [apply hideAllSections_hides|]. intros [].
  apply stable_from; [|intros w; apply AllHidden_except].
  apply stable_bind; [|intros []]; [apply stable_assignText|apply stable_assign];
    apply frames_HiddenExcept; [not_a_section|done].
Qed.

Lemma renderResults_exclusive result file :
  triple (λ _, True) (renderResults result file)
    (λ _, onDocument (HiddenExcept "resultsSection"))
    (onDocument (HiddenExcept "resultsSection")).
Proof.
  unfold renderResults.
  eapply triple_bind; [apply hideAllSections_hides|]. intros [].
  apply stable_from; [|intros w; apply AllHidden_except].
  unfold addAudioPlayer, fixedOf, hasStats.
  stable_steps; apply frames_HiddenExcept; first [done|not_a_section].
Qed.

Lemma always_ends {A} (m : M A) (E : World → Prop) :
  (∀ w, E w) → triple (λ _, True) m (λ _ _, True) E.
Proof. intros HE w _. by destruct (m w) as [[a|e] w']. Qed.

Lemma console_error_returns label (E : World → Prop) :
  triple (λ _, True) (console_error label) (λ _ _, True) E.
Proof. by intros w _. Qed.

Lemma showError_atMostOne message :
  triple (λ _, True) (showError message) (λ _, atMostOneVisible) atMostOneVisible.
Proof.
  eapply triple_weaken; [apply showError_exclusive|done|..].
  - intros ? w. apply HiddenExcept_atMostOne.
  - intros w. apply HiddenExcept_atMostOne.
Qed.

Lemma displayResults_exclusive result file :
  triple (λ _, True) (displayResults result file)
    (λ _, atMostOneVisible) atMostOneVisible.
Proof.
  unfold displayResults.
  apply triple_tryCatch with (E' := λ _, True).
  - eapply triple_weaken; [apply renderResults_exclusive|done| |done].
    intros ? w. apply HiddenExcept_atMostOne.
  - intros e. eapply triple_bind; [apply console_error_returns|].
    intros []. apply showError_atMostOne.
Qed.

Lemma upload_exclusive file reply :
  triple (λ _, True) (upload file reply) (λ _, atMostOneVisible) atMostOneVisible.
Proof.
  unfold upload. apply triple_tryCatch with (E' := λ _, True).
  - eapply triple_bind with (Q := λ _ _, True); [by apply always_ends|]. intros [].
    eapply triple_bind with (Q := λ _ _, True); [by apply always_ends|]. intros result.
    eapply triple_bind with (Q := λ _ _, True); [by apply always_ends|]. intros success.
    destruct (toBoolean success).
    + eapply triple_weaken; [apply displayResults_exclusive|done..].
    + eapply triple_bind with (Q := λ _ _, True); [by apply always_ends|]. intros error.
      eapply triple_weaken; [apply showError_atMostOne|done..].
  - intros e. eapply triple_bind; [apply console_error_returns|].
    intros []. apply showError_atMostOne.
Qed.

Lemma handleFileUpload_exclusive file reply :
  triple (λ _, True) (handleFileUpload file reply)
    (λ _, atMostOneVisible) atMostOneVisible.
Proof.
  unfold handleFileUpload. rewrite fileExtension_afterFinal.
  destruct (negb _); [apply showError_atMostOne|].
  destruct (sizeTooLarge _); [apply showError_atMostOne|apply upload_exclusive].
Qed.
End Visibility.

Lemma frames_AllHidden id : id ∉ sectionIds → frames id AllHidden.
Proof.
  intros Hout d el el' Hel Hall other Hin el0.
  assert (id ≠ other) as Hother by (intros ->; auto).
  rewrite lookup_insert_ne by done. by apply Hall.
Qed.

Lemma resetApp_exclusive :
  triple (λ w, present w "fileInput") resetApp
    (λ _, onDocument AllHidden) (λ _, False).
Proof.
  unfold resetApp.
  eapply triple_bind with (Q := λ _ _, True).
  { intros w [el Hel]. by rewrite (assign_normal _ _ _ _ Hel). }
  intros _. eapply triple_bind; [apply hideAllSections_hides|]. intros [].
  intros w Hall. rewrite assignIfPresent_alter. unfold onDocument. simpl.
  intros id Hin el. rewrite lookup_alter_ne; [by apply Hall|].
  intros <-. revert Hin. not_a_section.
Qed.

Lemma AllHidden_atMostOne w : AllHidden (document w) → atMostOneVisible w.
Proof.
  intros Hall. apply (HiddenExcept_atMostOne w "loadingSection").
  by apply AllHidden_except.
Qed.

(** ** Sequences of controller operations *)

Lemma perform_present `{Builtins} op id :
  stable (onDocument (Present id)) (perform op).
Proof.
  destruct op; simpl;
    [apply stable_showLoading|apply stable_displayResults|apply stable_showError
    |apply stable_resetApp|apply stable_handleFileUpload];
    intros id'; apply frames_Present.
Qed.

Lemma perform_present_after `{Builtins} op id w :
  present w id → present (perform op w).2 id.
Proof.
  intros Hp. pose proof (perform_present op id w Hp) as Hst.
  by destruct (perform op w) as [[[]|e] w'].
Qed.

Lemma performAll_present `{Builtins} ops id w :
  present w id → present (performAll ops w) id.
Proof.
  revert w. induction ops as [|op ops IH]; intros w Hp; simpl; [done|].
  by apply IH, perform_present_after.
Qed.

Lemma perform_atMostOne `{Builtins} op w :
  present w "fileInput" → atMostOneVisible (perform op w).2.
Proof.
  intros Hp. destruct op as [|result file|message| |file reply]; simpl.
  - pose proof (showLoading_exclusive w I) as Hst.
    destruct (showLoading w) as [[[]|e] w']; by eapply HiddenExcept_atMostOne.
  - pose proof (displayResults_exclusive result file w I) as Hst.
    by destruct (displayResults result file w) as [[[]|e] w'].
  - pose proof (showError_atMostOne message w I) as Hst.
    by destruct (showError message w) as [[[]|e] w'].
  - pose proof (resetApp_exclusive w Hp) as Hst.
    destruct (resetApp w) as [[[]|e] w']; [by apply AllHidden_atMostOne|done].
  - pose proof (handleFileUpload_exclusive file reply w I) as Hst.
    by destruct (handleFileUpload file reply w) as [[[]|e] w'].
Qed.

Lemma performAll_snoc `{Builtins} ops op w :
  performAll (ops ++ [op]) w = (perform op (performAll ops w)).2.
Proof. revert w. induction ops as [|op' ops IH]; intros w; simpl; [done|apply IH]. Qed.

(** ** The error view and the loading view, computed *)

Lemma assign_alter id f w :
  present w id →
  assign id f w = (Normal tt, with_document (alter f id (document w)) w).
Proof.
  intros [el Hel].
  by rewrite (assign_normal _ _ _ _ Hel), (insert_as_alter _ _ _ _ Hel).
Qed.

Lemma assignText_alter `{Builtins} id v s w :
  present w id → toTextContent v = Normal s →
  assignText id v w
  = (Normal tt, with_document (alter (Element.set_textContent s) id (document w)) w).
Proof.
  intros Hp Hs. pose proof Hp as [el Hel].
  unfold assignText, getElementById, mbind, M_bind. rewrite Hel.
  unfold lift. rewrite Hs. by apply assign_alter.
Qed.

Lemma assignText_null `{Builtins} id v w :
  document w !! id = None → assignText id v w = (Throw TypeError, w).
Proof.
  intros Hel. unfold assignText, getElementById, mbind, M_bind. by rewrite Hel.
Qed.

Lemma present_with_document d w id :
  present (with_document d w) id ↔ is_Some (d !! id).
Proof. done. Qed.

Lemma errorView_present s d id : is_Some (errorView s d !! id) ↔ is_Some (d !! id).
Proof.
  unfold errorView. by rewrite !lookup_alter_is_Some, hideSections_present.
Qed.

Lemma loadingView_present d id : is_Some (loadingView d !! id) ↔ is_Some (d !! id).
Proof.
  unfold loadingView. by rewrite lookup_alter_is_Some, hideSections_present.
Qed.

Lemma showError_run `{Builtins} message s w :
  errorRegionsPresent w → toTextContent message = Normal s →
  showError message w = (Normal tt, with_document (errorView s (document w)) w).
Proof.
  intros [Hmsg Hsec] Hs. unfold showError.
  eapply bind_normal; [apply hideAllSections_alter|].
  eapply bind_normal.
  { apply assignText_alter; [|exact Hs].
    by apply present_with_document, hideSections_present. }
  rewrite assign_alter.
  - by destruct w.
  - apply present_with_document. simpl.
    by rewrite lookup_alter_is_Some, hideSections_present.
Qed.

Lemma showLoading_run `{Builtins} w :
  present w "loadingSection" →
  showLoading w = (Normal tt, with_document (loadingView (document w)) w).
Proof.
  intros Hp. unfold showLoading.
  eapply bind_normal; [apply hideAllSections_alter|].
  rewrite assign_alter.
  - by destruct w.
  - by apply present_with_document, hideSections_present.
Qed.

Lemma visible_with_document d w id :
  visible (with_document d w) id
  = match d !! id with
    | Some el => negb (bool_decide (Element.display el = "none"))
    | None => false
    end.
Proof. done. Qed.

Lemma errorView_shows s d w :
  is_Some (d !! "errorMessage") → is_Some (d !! "errorSection") →
  showsError (with_document (errorView s d) w) s.
Proof.
  intros [em Hem] [es Hes]. unfold showsError, uiState, displayOf, textOf.
  rewrite !visible_with_document. simpl. unfold errorView.
  rewrite !lookup_alter_eq, !(lookup_alter_ne _ _ "errorSection") by done.
  rewrite !(lookup_alter_ne _ _ "errorMessage") by done.
  rewrite lookup_alter_eq.
  rewrite !hideSections_section by (apply sectionIds_cases; auto).
  rewrite (hideSections_other _ "errorMessage") by not_a_section.
  rewrite Hem, Hes. simpl.
  by destruct (d !! "loadingSection"), (d !! "resultsSection").
Qed.

(** What [showError] does, for the regions it needs: it returns, the error
    view shows the message, and nothing but the document changes. *)
Lemma showError_spec `{Builtins} message s w :
  errorRegionsPresent w → toTextContent message = Normal s →
  ∃ w', showError message w = (Normal tt, w') ∧ showsError w' s ∧
        requests w' = requests w ∧ objectURLs w' = objectURLs w ∧
        createdURLs w' = createdURLs w.
Proof.
  intros Hp Hs. eexists. split; [by apply showError_run|].
  destruct Hp as [Hmsg Hsec]. split; [by apply errorView_shows|done].
Qed.

(** ** [handleFileUpload], branch by branch *)

Lemma assign_outside x id f : stable (λ w, outside w = x) (assign id f).
Proof. intros w Hw. unfold assign. by destruct (document w !! id). Qed.

Lemma assignIfPresent_outside x id f :
  stable (λ w, outside w = x) (assignIfPresent id f).
Proof.
  unfold assignIfPresent.
  apply stable_bind; [apply stable_getElementById|].
  intros [el|]; [apply assign_outside|apply stable_ret].
Qed.

Lemma assignText_outside `{Builtins} x id v :
  stable (λ w, outside w = x) (assignText id v).
Proof.
  unfold assignText.
  apply stable_bind; [apply stable_getElementById|].
  intros [el|]; [|apply stable_throw].
  apply stable_bind; [apply stable_lift|]. intros text. apply assign_outside.
Qed.

Lemma showError_keeps_outside `{Builtins} x message :
  stable (λ w, outside w = x) (showError message).
Proof.
  unfold showError, hideAllSections.
  apply stable_bind; [apply stable_forEach; intros id; apply assignIfPresent_outside|].
  intros []. apply stable_bind; [apply assignText_outside|].
  intros []. apply assign_outside.
Qed.

Section Branches.
Context `{Builtins}.

Lemma handleFileUpload_unsupported file reply :
  extensionAllowed (File.name file) = false →
  handleFileUpload file reply = showError (JString unsupportedFormatMessage).
Proof.
  unfold handleFileUpload, extensionAllowed.
  rewrite fileExtension_afterFinal. by intros ->.
Qed.

Lemma handleFileUpload_tooLarge file reply :
  extensionAllowed (File.name file) = true →
  sizeTooLarge (File.size file) = true →
  handleFileUpload file reply = showError (JString fileTooLargeMessage).
Proof.
  unfold handleFileUpload, extensionAllowed.
  rewrite fileExtension_afterFinal. by intros -> ->.
Qed.

Lemma handleFileUpload_valid file reply :
  extensionAllowed (File.name file) = true →
  sizeTooLarge (File.size file) = false →
  handleFileUpload file reply = upload file reply.
Proof.
  unfold handleFileUpload, extensionAllowed.
  rewrite fileExtension_afterFinal. by intros -> ->.
Qed.

(** [showError] only writes to the document. *)
Lemma showError_outside message w :
  requests (showError message w).2 = requests w ∧
  objectURLs (showError message w).2 = objectURLs w ∧
  createdURLs (showError message w).2 = createdURLs w.
Proof.
  pose proof (showError_keeps_outside (outside w) message w eq_refl) as Hst.
  destruct (showError message w) as [[[]|e] w']; simpl;
    injection Hst as ? ? ? ? ?; done.
Qed.

(** The server answered with a value whose [success] is falsy. *)
Lemma upload_server_failure file result success error s w :
  present w "loadingSection" → errorRegionsPresent w →
  getProp result "success" = Normal success → toBoolean success = false →
  getProp result "error" = Normal error →
  toTextContent (jsOr error (JString unknownErrorMessage)) = Normal s →
  ∃ w', upload file (Responded (Some result)) w = (Normal tt, w') ∧
        showsError w' s ∧ requests w' = (requests w ++ [file])%list.
Proof.
  intros Hload [Hmsg Hsec] Hsuccess Hfalsy Herror Hs.
  unfold upload, tryCatch, mbind, M_bind.
  rewrite (showLoading_run w Hload).
  cbn [fetchJson document with_document objectURLs createdURLs revocations
       requests console].
  unfold lift. rewrite Hsuccess, Hfalsy, Herror.
  set (w2 := mkWorld _ _ _ _ _ _).
  assert (errorRegionsPresent w2) as Hp2.
  { split; unfold present; cbn [w2 document]; by apply loadingView_present. }
  rewrite (showError_run _ s w2 Hp2 Hs).
  eexists. split; [done|]. split; [|done].
  apply errorView_shows; cbn [w2 document]; by apply loadingView_present.
Qed.
End Branches.

(** ** Validation *)

Lemma handleFileUpload_cases `{Builtins} file reply :
  handleFileUpload file reply =
  if extensionAllowed (File.name file)
  then if sizeTooLarge (File.size file)
       then showError (JString fileTooLargeMessage)
       else upload file reply
  else showError (JString unsupportedFormatMessage).
Proof.
  destruct (extensionAllowed (File.name file)) eqn:Hext;
    [destruct (sizeTooLarge (File.size file)) eqn:Hsize|].
  - by apply handleFileUpload_tooLarge.
  - by apply handleFileUpload_valid.
  - by apply handleFileUpload_unsupported.
Qed.

Example upper_case_extension_passes : extensionAllowed "clip.WAV" = true.
Proof. reflexivity. Qed.

Example lower_case_extension_passes : extensionAllowed "clip.wav" = true.
Proof. reflexivity. Qed.

Example flac_is_rejected : extensionAllowed "track.flac" = false.
Proof. reflexivity. Qed.

(** C1, as the specification states it, fails on a name without a dot: such
    a name is its own last piece, so the file named [mp3] passes the check. *)
Lemma dotless_name_can_pass :
  ¬ (∀ name, Str.contains "." name = false → extensionAllowed name = false).
Proof. intros Hall. by specialize (Hall "mp3" eq_refl). Qed.

(** C1, amended.  The extension check of [handleFileUpload] passes exactly
    when the last piece of the name split at its dots lower-cases to one of
    mp3, wav, ogg, m4a: for a name with a dot that piece is the substring
    after the final dot, and for a name without a dot it is the whole name.
    When the check fails the handler shows the unsupported-format error. *)
Theorem extension_check_uses_last_piece `{Builtins} (name : string) :
  (∀ pre ext, name = pre +:+ String "." ext → Str.contains "." ext = false →
     (extensionAllowed name = true ↔ Str.toLowerCase ext ∈ allowedExtensions)) ∧
  (Str.contains "." name = false →
     (extensionAllowed name = true ↔ Str.toLowerCase name ∈ allowedExtensions)) ∧
  (∀ file reply, File.name file = name →
     handleFileUpload file reply =
     if extensionAllowed name
     then if sizeTooLarge (File.size file)
          then showError (JString fileTooLargeMessage)
          else upload file reply
     else showError (JString unsupportedFormatMessage)).
Proof.
  split; [|split].
  - intros pre ext -> Hext. rewrite extensionAllowed_iff.
    by rewrite (afterFinal_app "." pre ext Hext).
  - intros Hname. rewrite extensionAllowed_iff.
    by rewrite (afterFinal_without "." name Hname).
  - intros file reply <-. apply handleFileUpload_cases.
Qed.

(** C3.  For a file whose extension is allowed, the size check passes (the
    handler goes on to the upload) exactly when the size is at most
    16 * 1024 * 1024 bytes, that size included; any larger size ends in the
    size-too-large error. *)
Theorem size_check_boundary `{Builtins} file reply :
  extensionAllowed (File.name file) = true →
  (sizeTooLarge (File.size file) = false ↔ (File.size file ≤ 16 * 1024 * 1024)%N) ∧
  ((File.size file ≤ 16 * 1024 * 1024)%N →
     handleFileUpload file reply = upload file reply) ∧
  ((16 * 1024 * 1024 < File.size file)%N →
     handleFileUpload file reply = showError (JString fileTooLargeMessage) ∧
     ∀ w, errorRegionsPresent w →
          ∃ w', handleFileUpload file reply w = (Normal tt, w') ∧
                showsError w' fileTooLargeMessage).
Proof.
  intros Hext. split; [apply sizeTooLarge_false|]. split.
  - intros Hle. apply handleFileUpload_valid; [done|by apply sizeTooLarge_false].
  - intros Hgt. apply sizeTooLarge_iff in Hgt.
    rewrite (handleFileUpload_tooLarge file reply Hext Hgt). split; [done|].
    intros w Hp.
    destruct (showError_spec (JString fileTooLargeMessage) fileTooLargeMessage w Hp eq_refl)
      as (w' & Hrun & Hshow & _).
    by exists w'.
Qed.

(** The boundary itself and the first size beyond it. *)
Lemma size_check_boundary_witness :
  extensionAllowed "clip.wav" = true ∧
  (@handleFileUpload exampleBuiltins (File.mk "clip.wav" (16 * 1024 * 1024) "") RequestFailed
   = @upload exampleBuiltins (File.mk "clip.wav" (16 * 1024 * 1024) "") RequestFailed) ∧
  (∃ w', @handleFileUpload exampleBuiltins
           (File.mk "clip.wav" (16 * 1024 * 1024 + 1) "") RequestFailed examplePage
         = (Normal tt, w') ∧ showsError w' fileTooLargeMessage).
Proof.
  split; [reflexivity|]. split.
  - apply (@size_check_boundary exampleBuiltins
             (File.mk "clip.wav" (16 * 1024 * 1024) "") RequestFailed).
    + reflexivity.
    + simpl. lia.
  - apply (@size_check_boundary exampleBuiltins
             (File.mk "clip.wav" (16 * 1024 * 1024 + 1) "") RequestFailed).
    + reflexivity.
    + simpl. lia.
    + split; vm_compute; eauto.
Defined.

(** ** Errors reported by the server *)

Lemma handleFileUpload_server_failure `{Builtins} file props s w :
  extensionAllowed (File.name file) = true →
  sizeTooLarge (File.size file) = false →
  present w "loadingSection" → errorRegionsPresent w →
  props !! "success" = Some (JBool false) →
  toTextContent (jsOr (default JUndefined (props !! "error"))
                      (JString unknownErrorMessage)) = Normal s →
  ∃ w', handleFileUpload file (Responded (Some (JObject props))) w = (Normal tt, w') ∧
        showsError w' s.
Proof.
  intros Hext Hsize Hload Hregions Hsuccess Hs.
  rewrite (handleFileUpload_valid file _ Hext Hsize).
  destruct (upload_server_failure file (JObject props) (JBool false)
              (default JUndefined (props !! "error")) s w)
    as (w' & Hrun & Hshow & _); try done.
  - simpl. by rewrite Hsuccess.
  - by exists w'.
Qed.

(** C5, as the specification states it, fails when the server supplies the
    empty string: the fallback is shown, not the supplied string. *)
Lemma empty_server_message_is_replaced :
  ∃ w', @handleFileUpload exampleBuiltins exampleFile
          (Responded (Some (failureWith (Some (JString ""))))) examplePage
        = (Normal tt, w') ∧
        textOf w' "errorMessage" = Some unknownErrorMessage ∧
        textOf w' "errorMessage" ≠ Some "".
Proof. eexists. split; [vm_compute; reflexivity|]. split; [reflexivity|done]. Qed.

(** C5, amended.  For an accepted file and a response object whose
    [success] is [false], the handler ends in the error view; the message is
    the server's [error] string verbatim when that string is not empty, and
    the generic fallback when the response has no [error] field. *)
Theorem server_failure_message `{Builtins} file props w :
  extensionAllowed (File.name file) = true →
  sizeTooLarge (File.size file) = false →
  present w "loadingSection" → errorRegionsPresent w →
  props !! "success" = Some (JBool false) →
  (∀ s, props !! "error" = Some (JString s) → s ≠ "" →
     ∃ w', handleFileUpload file (Responded (Some (JObject props))) w = (Normal tt, w') ∧
           showsError w' s) ∧
  (props !! "error" = None →
     ∃ w', handleFileUpload file (Responded (Some (JObject props))) w = (Normal tt, w') ∧
           showsError w' unknownErrorMessage).
Proof.
  intros Hext Hsize Hload Hregions Hsuccess. split.
  - intros s Herror Hne. apply handleFileUpload_server_failure; try done.
    rewrite Herror. unfold jsOr. simpl.
    by rewrite bool_decide_eq_false_2.
  - intros Herror. apply handleFileUpload_server_failure; try done.
    by rewrite Herror.
Qed.

Lemma server_failure_message_witness :
  (∃ w', @handleFileUpload exampleBuiltins exampleFile
           (Responded (Some (failureWith (Some (JString "bad audio"))))) examplePage
         = (Normal tt, w') ∧ showsError w' "bad audio").
Proof.
  apply (@server_failure_message exampleBuiltins exampleFile
           (<["error" := JString "bad audio"]> {["success" := JBool false]})
           examplePage); try reflexivity; try done.
  - vm_compute. eauto.
  - split; vm_compute; eauto.
Defined.

(** C10.  When the response has [success = false] and an [error] field that
    is the empty string, the message shown is the generic fallback, as for
    an absent field, and not the empty string. *)
Theorem empty_server_message_falls_back `{Builtins} file props w :
  extensionAllowed (File.name file) = true →
  sizeTooLarge (File.size file) = false →
  present w "loadingSection" → errorRegionsPresent w →
  props !! "success" = Some (JBool false) →
  props !! "error" = Some (JString "") →
  (∃ w', handleFileUpload file (Responded (Some (JObject props))) w = (Normal tt, w') ∧
         showsError w' unknownErrorMessage) ∧
  unknownErrorMessage ≠ "".
Proof.
  intros Hext Hsize Hload Hregions Hsuccess Herror. split; [|done].
  apply handleFileUpload_server_failure; try done. by rewrite Herror.
Qed.

Lemma empty_server_message_falls_back_witness :
  (∃ w', @handleFileUpload exampleBuiltins exampleFile
           (Responded (Some (failureWith (Some (JString ""))))) examplePage
         = (Normal tt, w') ∧ showsError w' unknownErrorMessage) ∧
  unknownErrorMessage ≠ "".
Proof.
  apply (@empty_server_message_falls_back exampleBuiltins exampleFile
           (<["error" := JString ""]> {["success" := JBool false]})
           examplePage); try reflexivity; try done.
  - vm_compute. eauto.
  - split; vm_compute; eauto.
Defined.

(** ** Validation failures *)

(** C6.  When validation fails (extension not allowed, or size over the
    limit), the handler issues no request and creates no object URL, and on
    a page with the error regions it returns in the error view, with the
    unsupported-format message for the extension and the size-too-large
    message for the size; the two messages differ. *)
Theorem validation_failure_stays_local `{Builtins} file reply w :
  extensionAllowed (File.name file) = false ∨ sizeTooLarge (File.size file) = true →
  (requests (handleFileUpload file reply w).2 = requests w ∧
   objectURLs (handleFileUpload file reply w).2 = objectURLs w ∧
   createdURLs (handleFileUpload file reply w).2 = createdURLs w) ∧
  (errorRegionsPresent w →
   ∃ w', handleFileUpload file reply w = (Normal tt, w') ∧
         showsError w' (if extensionAllowed (File.name file)
                        then fileTooLargeMessage else unsupportedFormatMessage)) ∧
  unsupportedFormatMessage ≠ fileTooLargeMessage.
Proof.
  intros Hfail. rewrite handleFileUpload_cases.
  assert (∃ message,
    (if extensionAllowed (File.name file)
     then if sizeTooLarge (File.size file)
          then showError (JString fileTooLargeMessage) else upload file reply
     else showError (JString unsupportedFormatMessage)) = showError (JString message) ∧
    message = (if extensionAllowed (File.name file)
               then fileTooLargeMessage else unsupportedFormatMessage))
    as (message & -> & Hmessage).
  { destruct (extensionAllowed (File.name file)); [|by eexists].
    destruct Hfail as [?| ->]; [done|by eexists]. }
  rewrite <- Hmessage. split; [apply showError_outside|]. split; [|done].
  intros Hp.
  destruct (showError_spec (JString message) message w Hp eq_refl)
    as (w' & Hrun & Hshow & _).
  by exists w'.
Qed.

Lemma validation_failure_stays_local_witness :
  ∃ w', @handleFileUpload exampleBuiltins (File.mk "track.flac" 2048 "fLaC")
          RequestFailed examplePage = (Normal tt, w') ∧
        showsError w' unsupportedFormatMessage ∧ requests w' = [].
Proof.
  destruct (@validation_failure_stays_local exampleBuiltins
              (File.mk "track.flac" 2048 "fLaC") RequestFailed examplePage)
    as ((Hreq & _ & _) & Hshow & _).
  - left. reflexivity.
  - destruct Hshow as (w' & Hrun & Hshow); [split; vm_compute; eauto|].
    exists w'. rewrite Hrun in Hreq. split; [exact Hrun|]. split; [exact Hshow|exact Hreq].
Defined.

(** ** Failures while rendering *)

Lemma renderResults_present `{Builtins} result file w id :
  present w id → present (renderResults result file w).2 id.
Proof.
  intros Hp.
  pose proof (stable_renderResults (Present id) (λ id', frames_Present id' id)
                result file w Hp) as Hst.
  by destruct (renderResults result file w) as [[[]|e] w'].
Qed.

(** C7.  On a page with the error regions, [displayResults] never throws:
    whenever its rendering steps throw, whatever the response and wherever
    the throw happens, the exception is caught and the handler returns in
    the error view with the generic display-error message. *)
Theorem render_failure_is_caught `{Builtins} result file w :
  errorRegionsPresent w →
  ∃ w', displayResults result file w = (Normal tt, w') ∧
        (∀ e w1, renderResults result file w = (Throw e, w1) →
                 showsError w' displayErrorMessage).
Proof.
  intros [Hmsg Hsec]. unfold displayResults, tryCatch.
  pose proof (renderResults_present result file w _ Hmsg) as Hmsg'.
  pose proof (renderResults_present result file w _ Hsec) as Hsec'.
  destruct (renderResults result file w) as [[[]|e] w1]; simpl in *.
  - eexists. split; [done|]. by intros e w1' [=].
  - unfold mbind, M_bind. simpl.
    set (w2 := mkWorld _ _ _ _ _ _).
    destruct (showError_spec (JString displayErrorMessage) displayErrorMessage w2)
      as (w' & Hrun & Hshow & _); [by split|done|].
    exists w'. split; [done|]. by intros _ _ _.
Qed.

(** A response without its [duration] field. *)
Lemma render_failure_is_caught_witness :
  ∃ w', @displayResults exampleBuiltins withoutDuration exampleFile examplePage
        = (Normal tt, w') ∧ showsError w' displayErrorMessage.
Proof.
  destruct (@render_failure_is_caught exampleBuiltins withoutDuration exampleFile
              examplePage) as (w' & Hrun & Hshow).
  - split; vm_compute; eauto.
  - exists w'. split; [exact Hrun|].
    eapply Hshow. vm_compute. reflexivity.
Defined.

(** ** Reset *)

Lemma idleView_lookup d id : idleView d !! id = resetElement id <$> d !! id.
Proof.
  unfold idleView, resetElement.
  destruct (decide (id = "audioPlayer")) as [->|Hna].
  - rewrite lookup_alter_eq, hideSections_other by not_a_section.
    by rewrite lookup_alter_ne.
  - rewrite lookup_alter_ne, (bool_decide_eq_false_2 _ Hna) by done.
    destruct (decide (id ∈ sectionIds)) as [Hin|Hout].
    + rewrite (bool_decide_eq_true_2 _ Hin), hideSections_section by done.
      rewrite lookup_alter_ne; [done|]. intros <-. revert Hin. not_a_section.
    + rewrite (bool_decide_eq_false_2 _ Hout), hideSections_other by done.
      destruct (decide (id = "fileInput")) as [->|Hnf].
      * by rewrite lookup_alter_eq.
      * rewrite lookup_alter_ne, (bool_decide_eq_false_2 _ Hnf) by done.
        by destruct (d !! id).
Qed.

Lemma resetElement_idempotent id el :
  resetElement id (resetElement id el) = resetElement id el.
Proof. unfold resetElement. by repeat case_bool_decide. Qed.

Lemma idleView_idempotent d : idleView (idleView d) = idleView d.
Proof.
  apply map_eq. intros id. rewrite !idleView_lookup.
  destruct (d !! id) as [el|]; simpl; [|done].
  by rewrite resetElement_idempotent.
Qed.

Lemma resetApp_run w :
  present w "fileInput" →
  resetApp w = (Normal tt, with_document (idleView (document w)) w).
Proof.
  intros Hp. unfold resetApp.
  eapply bind_normal; [by apply assign_alter|].
  eapply bind_normal; [apply forEach_sections_alter|].
  rewrite assignIfPresent_alter. by destruct w.
Qed.

(** C8.  On a page with its file input, [resetApp] called in any state
    returns with the file selection cleared, no section visible (the idle
    state) and the audio player region empty; and calling it again changes
    nothing. *)
Theorem reset_returns_to_idle w :
  present w "fileInput" →
  ∃ w', resetApp w = (Normal tt, w') ∧
        filesOf w' "fileInput" = Some [] ∧
        uiState w' = Some Idle ∧
        (∀ id, id ∈ sectionIds → visible w' id = false) ∧
        (∀ el, document w' !! "audioPlayer" = Some el → Element.children el = []) ∧
        resetApp w' = (Normal tt, w').
Proof.
  intros Hp. exists (with_document (idleView (document w)) w).
  split; [by apply resetApp_run|].
  assert (∀ id, id ∈ sectionIds →
            visible (with_document (idleView (document w)) w) id = false) as Hhid.
  { intros id Hin. rewrite visible_with_document, idleView_lookup.
    unfold resetElement. rewrite bool_decide_eq_false_2, bool_decide_eq_true_2;
      [|done|intros ->; revert Hin; not_a_section].
    by destruct (document w !! id). }
  split; [|split; [|split; [exact Hhid|split]]].
  - unfold filesOf. simpl. rewrite idleView_lookup.
    destruct Hp as [el ->]. done.
  - unfold uiState. by rewrite !Hhid by (apply sectionIds_cases; auto).
  - intros el. simpl. rewrite idleView_lookup.
    destruct (document w !! "audioPlayer"); simpl; [|done]. by intros [= <-].
  - rewrite resetApp_run.
    + simpl. rewrite idleView_idempotent. by destruct w.
    + apply present_with_document. rewrite idleView_lookup.
      by apply fmap_is_Some.
Qed.

Lemma reset_returns_to_idle_witness :
  ∃ w', resetApp (@showError exampleBuiltins (JString "x") examplePage).2 = (Normal tt, w') ∧
        uiState w' = Some Idle.
Proof.
  destruct (reset_returns_to_idle (@showError exampleBuiltins (JString "x") examplePage).2)
    as (w' & Hrun & _ & Hidle & _).
  - vm_compute. eauto.
  - exists w'. split; [exact Hrun|exact Hidle].
Defined.

(** ** Mutual exclusion of the sections *)

(** C2.  On a page with its file input, after any non-empty sequence of
    controller operations ([showLoading], [displayResults], [showError],
    [resetApp], and [handleFileUpload], which combines them), each run to
    its end, at most one of the loading, results and error sections is
    visible: every operation hides all three before it shows its own. *)
Theorem sections_mutually_exclusive `{Builtins} w ops op :
  present w "fileInput" → atMostOneVisible (performAll (ops ++ [op]) w).
Proof.
  intros Hp. rewrite performAll_snoc.
  by apply perform_atMostOne, performAll_present.
Qed.

Lemma sections_mutually_exclusive_witness :
  atMostOneVisible
    (@performAll exampleBuiltins
       ([DoShowLoading; DoShowError (JString "x");
         DoHandleFileUpload exampleFile RequestFailed] ++ [DoShowLoading])
       examplePage).
Proof.
  apply (@sections_mutually_exclusive exampleBuiltins). vm_compute. eauto.
Defined.

(** ** Rendering a well-formed response *)

Lemma lift_normal {A} (c : Completion A) a w : c = Normal a → lift c w = (Normal a, w).
Proof. by intros ->. Qed.

Lemma hasStats_falsy `{Builtins} stats w :
  toBoolean stats = false → hasStats stats w = (Normal false, w).
Proof. unfold hasStats. by intros ->. Qed.

Lemma hasStats_object `{Builtins} (stats : gmap string JsValue) w :
  hasStats (JObject stats) w = (Normal (0 <? size stats)%nat, w).
Proof. done. Qed.

Lemma fixedOf_number `{Builtins} (stats : gmap string JsValue) key x f w :
  stats !! key = Some (JNumber x) →
  fixedOf (JObject stats) key f w = (Normal (Num.toFixed x f), w).
Proof. intros Hx. unfold fixedOf, mbind, M_bind, lift. simpl. by rewrite Hx. Qed.

Lemma renderRegionsPresent_cases w :
  renderRegionsPresent w →
  present w "wordText" ∧ present w "phoneticText" ∧ present w "meanPitch" ∧
  present w "pitchRange" ∧ present w "duration" ∧ present w "plotImage" ∧
  present w "audioPlayer" ∧ present w "resultsSection".
Proof.
  intros Hall. repeat split; apply Hall; unfold renderRegionIds;
    rewrite !elem_of_cons; tauto.
Qed.

(** Discharges [present _ id] for a document that is a chain of [alter]s. *)
Ltac present_here :=
  unfold present; cbn [document with_document];
  rewrite ?lookup_alter_is_Some, ?hideSections_present; assumption.

Ltac run_assignText :=
  eapply bind_normal; [apply assignText_alter; [present_here|reflexivity]|].

Ltac run_assign :=
  eapply bind_normal; [apply assign_alter; present_here|].

(** Lines 118-125 for each shape of [stats] that [pitchTexts] covers. *)
Lemma pitch_fields_run `{Builtins} stats mean range w :
  pitchTexts stats mean range →
  present w "meanPitch" → present w "pitchRange" →
  ∃ nonEmpty,
    hasStats (default JUndefined stats) w = (Normal nonEmpty, w) ∧
    (if nonEmpty : bool then
       mean ← fixedOf (default JUndefined stats) "mean_pitch" 1;
       assignText "meanPitch" (JString (mean +:+ " Hz"));;
       lo ← fixedOf (default JUndefined stats) "min_pitch" 1;
       hi ← fixedOf (default JUndefined stats) "max_pitch" 1;
       assignText "pitchRange" (JString (lo +:+ " - " +:+ hi +:+ " Hz"))
     else
       assignText "meanPitch" (JString "N/A");;
       assignText "pitchRange" (JString "N/A")) w
    = (Normal tt,
       with_document
         (alter (Element.set_textContent range) "pitchRange"
            (alter (Element.set_textContent mean) "meanPitch" (document w))) w).
Proof.
  intros Hpitch Hmean Hrange.
  destruct Hpitch as [| | |stats a b c Ha Hb Hc].
  - exists false. split; [done|]. run_assignText.
    rewrite (assignText_alter _ _ "N/A"); [by destruct w|present_here|done].
  - exists false. split; [done|]. run_assignText.
    rewrite (assignText_alter _ _ "N/A"); [by destruct w|present_here|done].
  - exists false. split; [done|]. run_assignText.
    rewrite (assignText_alter _ _ "N/A"); [by destruct w|present_here|done].
  - exists true. split.
    + cbn [default from_option id]. rewrite hasStats_object.
      assert (size stats ≠ 0) as Hne.
      { intros Hz. apply map_size_empty_inv in Hz. by rewrite Hz in Ha. }
      by destruct (size stats).
    + cbn [default from_option id].
      eapply bind_normal; [by apply fixedOf_number|].
      run_assignText.
      eapply bind_normal; [by apply fixedOf_number|].
      eapply bind_normal; [by apply fixedOf_number|].
      erewrite assignText_alter; [by destruct w|present_here|done].
Qed.

Lemma renderResults_run `{Builtins} props file w word phonetic plot d mean range :
  renderRegionsPresent w →
  props !! "word" = Some (JString word) →
  props !! "phonetic" = Some (JString phonetic) →
  props !! "duration" = Some (JNumber d) →
  props !! "plot" = Some (JString plot) →
  pitchTexts (props !! "stats") mean range →
  renderResults (JObject props) file w =
  (Normal tt,
   mkWorld
     (resultsView word phonetic mean range (Num.toFixed d 2) plot
        (Audio.mk true "100%" "500px" (createdURLs w) [createdURLs w]) (document w))
     (<[createdURLs w := file]> (objectURLs w)) (S (createdURLs w))
     (revocations w) (requests w) (console w)).
Proof.
  intros Hregions Hword Hphonetic Hduration Hplot Hpitch.
  apply renderRegionsPresent_cases in Hregions
    as (Hw & Hph & Hmean & Hrange & Hdur & Himg & Haudio & Hres).
  unfold renderResults.
  eapply bind_normal; [apply hideAllSections_alter|].
  eapply bind_normal; [apply lift_normal; cbn [getProp]; rewrite Hword; reflexivity|].
  run_assignText.
  eapply bind_normal; [apply lift_normal; cbn [getProp]; rewrite Hphonetic; reflexivity|].
  run_assignText.
  eapply bind_normal; [apply lift_normal; reflexivity|].
  match goal with
  | |- (hasStats _ ≫= _) ?w0 = _ =>
      destruct (pitch_fields_run _ _ _ w0 Hpitch) as (nonEmpty & Hhas & Hfields);
        [present_here|present_here|]
  end.
  eapply bind_normal; [exact Hhas|].
  eapply bind_normal; [exact Hfields|]. clear Hhas Hfields.
  eapply bind_normal; [by apply fixedOf_number|].
  run_assignText.
  eapply bind_normal; [reflexivity|].
  eapply bind_normal; [apply lift_normal; cbn [getProp]; rewrite Hplot; reflexivity|].
  eapply bind_normal; [apply lift_normal; reflexivity|].
  run_assign. run_assign.
  unfold addAudioPlayer.
  eapply bind_normal.
  { eapply bind_normal; [apply assign_alter; present_here|].
    eapply bind_normal; [reflexivity|].
    apply assign_alter. present_here. }
  rewrite assign_alter by present_here.
  reflexivity.
Qed.

Lemma resultsView_lookup_text word phonetic mean range seconds plot audio d :
  (Element.textContent <$> resultsView word phonetic mean range seconds plot audio d
     !! "meanPitch") = (λ _, mean) <$> d !! "meanPitch" ∧
  (Element.textContent <$> resultsView word phonetic mean range seconds plot audio d
     !! "pitchRange") = (λ _, range) <$> d !! "pitchRange" ∧
  (Element.textContent <$> resultsView word phonetic mean range seconds plot audio d
     !! "duration") = (λ _, seconds +:+ " 秒") <$> d !! "duration".
Proof.
  unfold resultsView. repeat split.
  - rewrite !(lookup_alter_ne _ _ _ "meanPitch") by done.
    rewrite lookup_alter_eq, !lookup_alter_ne by done.
    rewrite hideSections_other by not_a_section. by destruct (d !! "meanPitch").
  - rewrite !(lookup_alter_ne _ _ _ "pitchRange") by done.
    rewrite lookup_alter_eq, !lookup_alter_ne by done.
    rewrite hideSections_other by not_a_section. by destruct (d !! "pitchRange").
  - rewrite !(lookup_alter_ne _ _ _ "duration") by done.
    rewrite lookup_alter_eq, !lookup_alter_ne by done.
    rewrite hideSections_other by not_a_section. by destruct (d !! "duration").
Qed.

Lemma resultsView_lookup_section word phonetic mean range seconds plot audio d id :
  id ∈ sectionIds →
  resultsView word phonetic mean range seconds plot audio d !! id =
  (if bool_decide (id = "resultsSection")
   then Element.set_display "block" else Element.set_display "none") <$> d !! id.
Proof.
  intros Hin. unfold resultsView. apply sectionIds_cases in Hin as [-> | [-> | ->]].
  - rewrite !lookup_alter_ne by done.
    by rewrite hideSections_section by (apply sectionIds_cases; auto).
  - rewrite lookup_alter_eq, !lookup_alter_ne by done.
    rewrite hideSections_section by (apply sectionIds_cases; auto).
    by destruct (d !! "resultsSection").
  - rewrite !lookup_alter_ne by done.
    by rewrite hideSections_section by (apply sectionIds_cases; auto).
Qed.

(** After a successful rendering: the three texts and the results state. *)
Lemma displayResults_run `{Builtins} props file w word phonetic plot d mean range :
  renderRegionsPresent w →
  props !! "word" = Some (JString word) →
  props !! "phonetic" = Some (JString phonetic) →
  props !! "duration" = Some (JNumber d) →
  props !! "plot" = Some (JString plot) →
  pitchTexts (props !! "stats") mean range →
  ∃ w', displayResults (JObject props) file w = (Normal tt, w') ∧
        textOf w' "meanPitch" = Some mean ∧
        textOf w' "pitchRange" = Some range ∧
        textOf w' "duration" = Some (Num.toFixed d 2 +:+ " 秒") ∧
        uiState w' = Some Results.
Proof.
  intros Hregions Hword Hphonetic Hduration Hplot Hpitch.
  unfold displayResults, tryCatch.
  rewrite (renderResults_run props file w word phonetic plot d mean range) by done.
  eexists. split; [reflexivity|].
  apply renderRegionsPresent_cases in Hregions
    as (_ & _ & [em Hmean] & [er Hrange] & [ed Hdur] & _ & _ & [es Hres]).
  unfold textOf, uiState, visible. cbn [document].
  destruct (resultsView_lookup_text word phonetic mean range (Num.toFixed d 2) plot
              (Audio.mk true "100%" "500px" (createdURLs w) [createdURLs w])
              (document w)) as (-> & -> & ->).
  rewrite Hmean, Hrange, Hdur.
  rewrite !resultsView_lookup_section by (apply sectionIds_cases; auto).
  rewrite Hres. repeat split.
  by destruct (document w !! "loadingSection"), (document w !! "errorSection").
Qed.

(** ** The text [toFixed] produces *)

Lemma length_app (s t : string) :
  String.length (s +:+ t) = String.length s + String.length t.
Proof. induction s as [|c s IH]; simpl; [done|]. by rewrite IH. Qed.

Lemma allDigits_app s t : allDigits (s +:+ t) = allDigits s && allDigits t.
Proof. induction s as [|c s IH]; simpl; [done|]. by rewrite IH, andb_assoc. Qed.

Lemma length_zeros n : String.length (Str.zeros n) = n.
Proof. induction n as [|n IH]; simpl; [done|]. by rewrite IH. Qed.

Lemma allDigits_zeros n : allDigits (Str.zeros n) = true.
Proof. induction n as [|n IH]; simpl; done. Qed.

Lemma length_substring (s : string) : ∀ n m : nat,
  (n + m ≤ String.length s)%nat → String.length (substring n m s) = m.
Proof.
  induction s as [|c s IH]; intros [|n] [|m] Hle; simpl in *; try done; try lia.
  - rewrite (IH 0 m); [done|lia].
  - apply (IH n 0). lia.
  - apply (IH n (S m)). lia.
Qed.

Lemma allDigits_substring (s : string) : ∀ n m : nat,
  allDigits s = true → allDigits (substring n m s) = true.
Proof.
  induction s as [|c s IH]; intros [|n] [|m] Hs; simpl in *; try done.
  - apply andb_true_iff in Hs as [Hc Hs]. by rewrite Hc, (IH 0 m Hs).
  - apply andb_true_iff in Hs as [Hc Hs]. by apply IH.
  - apply andb_true_iff in Hs as [Hc Hs]. by apply IH.
Qed.

Lemma isDigit_pretty_N_char x : isDigit (pretty_N_char x) = true.
Proof. unfold pretty_N_char. by repeat case_match. Qed.

Lemma pretty_N_go_digits x : ∀ s,
  allDigits s = true →
  allDigits (pretty_N_go x s) = true ∧
  (String.length s ≤ String.length (pretty_N_go x s))%nat.
Proof.
  induction (N.lt_wf_0 x) as [x _ IH]. intros s Hs.
  destruct (decide (x = 0)%N) as [->|Hx]; [by rewrite pretty_N_go_0|].
  rewrite pretty_N_go_step by lia.
  destruct (IH (x `div` 10)%N) with (s := String (pretty_N_char (x `mod` 10)) s)
    as [Hd Hl].
  - apply N.div_lt; lia.
  - simpl. by rewrite isDigit_pretty_N_char.
  - split; [done|]. simpl in Hl. lia.
Qed.

Lemma pretty_N_digits (x : N) :
  allDigits (pretty x) = true ∧ (1 ≤ String.length (pretty x))%nat.
Proof.
  unfold pretty, pretty_N. destruct (decide (x = 0)%N) as [->|Hx]; [done|].
  rewrite pretty_N_go_step by lia.
  destruct (pretty_N_go_digits (x `div` 10)%N (String (pretty_N_char (x `mod` 10)) ""))
    as [Hd Hl].
  - simpl. by rewrite isDigit_pretty_N_char.
  - split; [done|]. simpl in Hl. lia.
Qed.

Lemma pointed_shape n f :
  ∃ int frac,
    Num.pointed n (S f) = int +:+ "." +:+ frac ∧
    allDigits int = true ∧ (1 ≤ String.length int)%nat ∧
    allDigits frac = true ∧ String.length frac = S f.
Proof.
  unfold Num.pointed.
  destruct (pretty_N_digits (Z.to_N n)) as [Hd Hl].
  set (m0 := pretty (Z.to_N n)) in *.
  set (m1 := if (String.length m0 <=? S f)%nat
             then Str.zeros (S f + 1 - String.length m0) +:+ m0 else m0).
  assert (allDigits m1 = true ∧ (S f + 1 ≤ String.length m1)%nat) as [Hd1 Hl1].
  { unfold m1. destruct (Nat.leb_spec (String.length m0) (S f)).
    - rewrite allDigits_app, allDigits_zeros, length_app, length_zeros. split; [done|lia].
    - split; [done|lia]. }
  eexists _, _. split; [reflexivity|].
  split; [by apply allDigits_substring|].
  split; [rewrite length_substring; lia|].
  split; [by apply allDigits_substring|].
  rewrite length_substring; lia.
Qed.

(** In fixed notation [toFixed] writes an optional minus sign, at least one
    digit, the point, and exactly the requested number of digits. *)
Lemma toFixed_shape `{Builtins} x f :
  fixedNotation x = true →
  ∃ sign int frac,
    Num.toFixed x (S f) = sign +:+ int +:+ "." +:+ frac ∧
    (sign = "" ∨ sign = "-") ∧
    allDigits int = true ∧ (1 ≤ String.length int)%nat ∧
    allDigits frac = true ∧ String.length frac = S f.
Proof.
  destruct x as [s| | |s m e]; cbn [fixedNotation Num.toFixed]; try done.
  - intros _. destruct (pointed_shape 0 f) as (int & frac & Hp & Hrest).
    exists "", int, frac. rewrite Hp. split; [done|]. split; [by left|done].
  - intros Hsmall. apply negb_true_iff in Hsmall. rewrite Hsmall.
    destruct (pointed_shape (Num.scaled m e (S f)) f) as (int & frac & Hp & Hrest).
    exists (if s then "-" else ""), int, frac. rewrite Hp.
    split; [done|]. split; [destruct s; auto|done].
Qed.

Example double_220_456_nearest :
  (2 ^ 52 ≤ 7756605933215547 < 2 ^ 53)%Z ∧
  (2 * Z.abs (1000 * 7756605933215547 - 220456 * 2 ^ 45) ≤ 1000)%Z.
Proof. vm_compute. split; [split|]; congruence. Qed.

Example doubles_exact :
  (5277655813324800 = 150 * 2 ^ 45)%Z ∧ (4 * 5282053859835904 = 1201 * 2 ^ 44)%Z ∧
  (2 * 6755399441055744 = 3 * 2 ^ 52)%Z.
Proof. by vm_compute. Qed.

Example double_1e21_exact :
  (2 ^ 52 ≤ 7629394531250000 < 2 ^ 53)%Z ∧ (7629394531250000 * 2 ^ 17 = 10 ^ 21)%Z.
Proof. vm_compute. split; [split|]; congruence. Qed.

(** C4, as the specification states it, fails for a duration of [10^21]
    seconds: the response is rendered, and the duration field reads
    [1e+21 秒], which is not a number written with two decimal places. *)
Lemma huge_duration_leaves_fixed_notation :
  fixedNotation double_1e21 = false ∧
  (∃ w', @displayResults standardNumbers (JObject longestResponse) exampleFile examplePage
         = (Normal tt, w') ∧
         uiState w' = Some Results ∧
         textOf w' "duration" = Some "1e+21 秒") ∧
  ¬ (∃ sign int frac,
       "1e+21" = sign +:+ int +:+ "." +:+ frac ∧
       (sign = "" ∨ sign = "-") ∧
       allDigits int = true ∧ (1 ≤ String.length int)%nat ∧
       allDigits frac = true ∧ String.length frac = 2).
Proof.
  split; [reflexivity|]. split.
  - eexists. split; [vm_compute; reflexivity|]. split; reflexivity.
  - intros (sign & int & frac & Htext & [-> | ->] & Hint & Hlen & _); [|done].
    destruct int as [|a [|b int]]; simpl in Htext, Hlen; [lia|done|].
    inversion Htext; subst. done.
Qed.

(** C4, amended.  For a response with its [word], [phonetic] and [plot]
    strings and its [duration] number, on a page with the result regions:
    [displayResults] returns in the results state with the duration field
    set to [duration.toFixed(2)] and the seconds suffix; the mean-pitch and
    pitch-range fields are both the placeholder [N/A] when [stats] is
    absent, [null] or an empty object, and are [mean_pitch.toFixed(1)] with
    [Hz] and [min_pitch.toFixed(1) - max_pitch.toFixed(1)] with [Hz] when
    [stats] carries the three numbers.  For a finite number of magnitude
    below [10^21], [toFixed(f)] is an optional sign, digits, a point and
    exactly [f] digits. *)
Theorem stats_rendering `{Builtins} props file w word phonetic plot d :
  renderRegionsPresent w →
  props !! "word" = Some (JString word) →
  props !! "phonetic" = Some (JString phonetic) →
  props !! "duration" = Some (JNumber d) →
  props !! "plot" = Some (JString plot) →
  (props !! "stats" = None ∨ props !! "stats" = Some JNull ∨
   props !! "stats" = Some (JObject ∅) →
   ∃ w', displayResults (JObject props) file w = (Normal tt, w') ∧
         textOf w' "meanPitch" = Some "N/A" ∧
         textOf w' "pitchRange" = Some "N/A" ∧
         textOf w' "duration" = Some (Num.toFixed d 2 +:+ " 秒") ∧
         uiState w' = Some Results) ∧
  (∀ stats mean lo hi,
     props !! "stats" = Some (JObject stats) →
     stats !! "mean_pitch" = Some (JNumber mean) →
     stats !! "min_pitch" = Some (JNumber lo) →
     stats !! "max_pitch" = Some (JNumber hi) →
     ∃ w', displayResults (JObject props) file w = (Normal tt, w') ∧
           textOf w' "meanPitch" = Some (Num.toFixed mean 1 +:+ " Hz") ∧
           textOf w' "pitchRange"
           = Some (Num.toFixed lo 1 +:+ " - " +:+ Num.toFixed hi 1 +:+ " Hz") ∧
           textOf w' "duration" = Some (Num.toFixed d 2 +:+ " 秒") ∧
           uiState w' = Some Results) ∧
  (∀ x f, fixedNotation x = true →
     ∃ sign int frac,
       Num.toFixed x (S f) = sign +:+ int +:+ "." +:+ frac ∧
       (sign = "" ∨ sign = "-") ∧
       allDigits int = true ∧ (1 ≤ String.length int)%nat ∧
       allDigits frac = true ∧ String.length frac = S f).
Proof.
  intros Hregions Hword Hphonetic Hduration Hplot. split; [|split].
  - intros Hstats. apply (displayResults_run props file w word phonetic plot); try done.
    destruct Hstats as [-> | [-> | ->]]; constructor.
  - intros stats mean lo hi Hstats Hmean Hlo Hhi.
    apply (displayResults_run props file w word phonetic plot); try done.
    rewrite Hstats. by constructor.
  - intros x f. apply toFixed_shape.
Qed.

(** The response of the specification's example: 220.456, 150.0, 300.25. *)
Lemma stats_rendering_witness :
  ∃ w', @displayResults exampleBuiltins (JObject exampleResponse) exampleFile examplePage
        = (Normal tt, w') ∧
        textOf w' "meanPitch" = Some "220.5 Hz" ∧
        textOf w' "pitchRange" = Some "150.0 - 300.3 Hz" ∧
        textOf w' "duration" = Some "1.50 秒" ∧
        uiState w' = Some Results.
Proof.
  destruct (@stats_rendering exampleBuiltins exampleResponse exampleFile examplePage
              "hello" "h@loU" "iVBORw0KGgo=" double_1_5) as (_ & Hgiven & _);
    try reflexivity.
  - intros id Hid. unfold renderRegionIds in Hid.
    rewrite !elem_of_cons, elem_of_nil in Hid.
    destruct Hid as [->|[->|[->|[->|[->|[->|[->|[->|[]]]]]]]]]; vm_compute; eauto.
  - apply (Hgiven exampleStats double_220_456 double_150 double_300_25); reflexivity.
Defined.

(** ** Object URLs *)

Lemma addAudioPlayer_run w file :
  present w "audioPlayer" →
  addAudioPlayer file w =
  (Normal tt,
   mkWorld
     (alter (Element.appendChild
               (Audio.mk true "100%" "500px" (createdURLs w) [createdURLs w]))
        "audioPlayer" (alter Element.clear_innerHTML "audioPlayer" (document w)))
     (<[createdURLs w := file]> (objectURLs w)) (S (createdURLs w))
     (revocations w) (requests w) (console w)).
Proof.
  intros Hp. unfold addAudioPlayer.
  eapply bind_normal; [by apply assign_alter|].
  eapply bind_normal; [reflexivity|].
  rewrite assign_alter; [reflexivity|].
  unfold present. cbn [document with_document]. by rewrite lookup_alter_is_Some.
Qed.

(** The audio player region after [addAudioPlayer]: one audio element, the
    new one, whatever the region held before. *)
Lemma addAudioPlayer_children w file :
  present w "audioPlayer" →
  childrenOf (addAudioPlayer file w).2 "audioPlayer"
  = Some [Audio.mk true "100%" "500px" (createdURLs w) [createdURLs w]].
Proof.
  intros Hp. rewrite (addAudioPlayer_run w file Hp). unfold childrenOf. simpl.
  rewrite !lookup_alter_eq. destruct Hp as [el ->]. done.
Qed.

Lemma addAudioPlayer_keeps_others w file id :
  id ≠ "audioPlayer" → present w "audioPlayer" →
  document (addAudioPlayer file w).2 !! id = document w !! id.
Proof.
  intros Hne Hp. rewrite (addAudioPlayer_run w file Hp). simpl.
  by rewrite !lookup_alter_ne.
Qed.

(** X19.  Replacing the player does not release the previous player's URL: after
    two calls the first URL is still in the store, no ['ended'] listener left
    in the document revokes it, and nothing has been revoked. *)
Lemma replaced_player_url_leaks w file1 file2 :
  present w "audioPlayer" → audiosOnlyInPlayer w →
  leaked (addAudioPlayer file2 (addAudioPlayer file1 w).2).2 (createdURLs w) ∧
  revocations (addAudioPlayer file2 (addAudioPlayer file1 w).2).2 = revocations w.
Proof.
  intros Hp Honly.
  rewrite (addAudioPlayer_run w file1 Hp). cbn [snd].
  set (w1 := mkWorld _ _ _ _ _ _).
  assert (present w1 "audioPlayer") as Hp1.
  { unfold present, w1. cbn [document]. by rewrite !lookup_alter_is_Some. }
  rewrite (addAudioPlayer_run w1 file2 Hp1). cbn [snd revocations w1].
  split; [|done]. split.
  - cbn [objectURLs w1 createdURLs]. rewrite lookup_insert_ne by lia.
    by rewrite lookup_insert_eq.
  - intros (id & el & audio & Hel & Haudio & Hurl). cbn [document w1 createdURLs] in Hel.
    destruct (decide (id = "audioPlayer")) as [->|Hne].
    + rewrite !lookup_alter_eq in Hel. destruct Hp as [el0 Hel0].
      rewrite Hel0 in Hel. simpl in Hel. injection Hel as <-.
      simpl in Haudio. apply list_elem_of_singleton in Haudio as ->.
      simpl in Hurl. apply list_elem_of_singleton in Hurl. lia.
    + rewrite !lookup_alter_ne in Hel by done.
      rewrite (Honly id el Hel Hne) in Haudio. by apply elem_of_nil in Haudio.
Qed.

(** X20.  [resetApp] empties the player without releasing its URL either. *)
Lemma reset_player_url_leaks w file :
  present w "audioPlayer" → present w "fileInput" → audiosOnlyInPlayer w →
  leaked (resetApp (addAudioPlayer file w).2).2 (createdURLs w) ∧
  revocations (resetApp (addAudioPlayer file w).2).2 = revocations w.
Proof.
  intros Hp Hf Honly.
  rewrite (addAudioPlayer_run w file Hp). cbn [snd].
  set (w1 := mkWorld _ _ _ _ _ _).
  assert (present w1 "fileInput") as Hf1.
  { unfold present, w1. cbn [document]. by rewrite !lookup_alter_is_Some. }
  rewrite (resetApp_run w1 Hf1). cbn [snd]. split; [|done]. split.
  - cbn [objectURLs with_document w1]. by rewrite lookup_insert_eq.
  - intros (id & el & audio & Hel & Haudio & Hurl).
    cbn [document with_document w1] in Hel. rewrite idleView_lookup in Hel.
    destruct (decide (id = "audioPlayer")) as [->|Hne].
    + rewrite !lookup_alter_eq in Hel. destruct Hp as [el0 Hel0].
      rewrite Hel0 in Hel. simpl in Hel. injection Hel as <-.
      by apply elem_of_nil in Haudio.
    + rewrite !lookup_alter_ne in Hel by done.
      destruct (document w !! id) as [el0|] eqn:Hel0; [|done].
      simpl in Hel. injection Hel as <-.
      assert (Element.children (resetElement id el0) = Element.children el0) as Hsame.
      { unfold resetElement. rewrite (bool_decide_eq_false_2 _ Hne).
        by repeat case_bool_decide. }
      rewrite Hsame, (Honly id el0 Hel0 Hne) in Haudio.
      by apply elem_of_nil in Haudio.
Qed.

Lemma not_revocable_check w url :
  map_Forall (λ _ el, Forall (λ a, url ∉ Audio.onEnded a) (Element.children el))
    (document w) →
  ¬ revocableBy w url.
Proof.
  intros Hall (id & el & audio & Hel & Haudio & Hurl).
  specialize (Hall id el Hel). rewrite Forall_forall in Hall.
  by apply (Hall audio).
Qed.

(** C9, at its failing input: two files uploaded one after the other with
    success, neither played to its end.  The object URL created for the
    first file is still held, nothing in the document can revoke it any
    more, and no URL has been revoked; the same holds when the application
    is reset after the first upload. *)
Lemma replaced_or_reset_player_leaks_url :
  let first := (@handleFileUpload exampleBuiltins exampleFile
                  (Responded (Some (JObject exampleResponse))) examplePage).2 in
  let second := (@handleFileUpload exampleBuiltins secondFile
                   (Responded (Some (JObject exampleResponse))) first).2 in
  (objectURLs first !! 0 = Some exampleFile ∧ revocableBy first 0) ∧
  (leaked second 0 ∧ revocations second = []) ∧
  (leaked (resetApp first).2 0 ∧ revocations (resetApp first).2 = []).
Proof.
  cbv zeta. split; [|split].
  - split; [by vm_compute|].
    exists "audioPlayer". eexists. eexists. split; [vm_compute; reflexivity|].
    split; [by left|by left].
  - split; [|by vm_compute]. split; [vm_compute; eauto|].
    apply not_revocable_check. apply (bool_decide_unpack _). by vm_compute.
  - split; [|by vm_compute]. split; [vm_compute; eauto|].
    apply not_revocable_check. apply (bool_decide_unpack _). by vm_compute.
Qed.

(** ** Further properties of the validation *)

Lemma toLowerCase_char_dot c :
  Ascii.eqb (Str.toLowerCase_char c) "." = Ascii.eqb c ".".
Proof. by destruct c as [[|] [|] [|] [|] [|] [|] [|] [|]]. Qed.

Lemma contains_toLowerCase s :
  Str.contains "." (Str.toLowerCase s) = Str.contains "." s.
Proof.
  induction s as [|c s IH]; simpl; [done|].
  by rewrite toLowerCase_char_dot, IH.
Qed.

Lemma afterFinal_toLowerCase s :
  afterFinal "." (Str.toLowerCase s) = Str.toLowerCase (afterFinal "." s).
Proof.
  induction s as [|c s IH]; [done|].
  cbn [Str.toLowerCase afterFinal Str.contains].
  rewrite toLowerCase_char_dot, contains_toLowerCase, IH.
  by destruct (Ascii.eqb c "." || Str.contains "." s).
Qed.

Lemma toLowerCase_char_idempotent c :
  Str.toLowerCase_char (Str.toLowerCase_char c) = Str.toLowerCase_char c.
Proof. by destruct c as [[|] [|] [|] [|] [|] [|] [|] [|]]. Qed.

Lemma toLowerCase_idempotent s :
  Str.toLowerCase (Str.toLowerCase s) = Str.toLowerCase s.
Proof.
  induction s as [|c s IH]; simpl; [done|].
  by rewrite toLowerCase_char_idempotent, IH.
Qed.

(** X1.  Two names that differ only in the case of their letters get the same
    verdict from the extension check. *)
Theorem extension_check_ignores_case (name name' : string) :
  Str.toLowerCase name = Str.toLowerCase name' →
  extensionAllowed name = extensionAllowed name'.
Proof.
  intros Hsame. unfold extensionAllowed.
  rewrite !fileExtension_afterFinal, <- !afterFinal_toLowerCase. by rewrite Hsame.
Qed.

Lemma extension_check_ignores_case_witness :
  extensionAllowed "Voice Memo.M4A" = extensionAllowed "voice memo.m4a".
Proof. apply extension_check_ignores_case. reflexivity. Defined.

Lemma allowedExtensions_dotless ext :
  Str.toLowerCase ext ∈ allowedExtensions → Str.contains "." ext = false.
Proof.
  intros Hin. rewrite <- contains_toLowerCase.
  unfold allowedExtensions in Hin. rewrite !elem_of_cons, elem_of_nil in Hin.
  by destruct Hin as [-> | [-> | [-> | [-> | []]]]].
Qed.

(** X2.  Whatever precedes the final dot, dots included, a name passes when the
    text after that dot is mp3, wav, ogg or m4a in any letter case; and a
    name that ends in a dot never passes. *)
Theorem extension_check_by_suffix (pre ext : string) :
  (Str.toLowerCase ext ∈ allowedExtensions →
   extensionAllowed (pre +:+ String "." ext) = true) ∧
  extensionAllowed (pre +:+ ".") = false.
Proof.
  split.
  - intros Hin. apply extensionAllowed_iff.
    by rewrite afterFinal_app by (by apply allowedExtensions_dotless).
  - destruct (extensionAllowed (pre +:+ ".")) eqn:Hext; [|done].
    apply extensionAllowed_iff in Hext.
    rewrite (afterFinal_app "." pre "") in Hext by done.
    unfold allowedExtensions in Hext. rewrite !elem_of_cons, elem_of_nil in Hext.
    by destruct Hext as [? | [? | [? | [? | []]]]].
Qed.

(** ** The [catch] of [handleFileUpload] *)

Lemma caught_upload_error `{Builtins} w :
  errorRegionsPresent w →
  ∃ w', (console_error "Upload error:";;
         showError (JString networkErrorMessage)) w = (Normal tt, w') ∧
        showsError w' networkErrorMessage ∧
        requests w' = requests w ∧
        objectURLs w' = objectURLs w ∧
        console w' = (console w ++ ["Upload error:"])%list.
Proof.
  intros [Hmsg Hsec].
  eexists. split.
  - eapply bind_normal; [reflexivity|].
    apply (showError_run _ networkErrorMessage); [by split|done].
  - split; [by apply errorView_shows|done].
Qed.

(** X3.  The request fails, the body is not JSON, or the body is the JSON value
    [null]: each throws inside the [try], after the request has been issued,
    and the handler ends in the error view with the network-error message. *)
Theorem failed_exchange_shows_network_error `{Builtins} file reply w :
  extensionAllowed (File.name file) = true →
  sizeTooLarge (File.size file) = false →
  present w "loadingSection" → errorRegionsPresent w →
  reply = RequestFailed ∨ reply = Responded None ∨ reply = Responded (Some JNull) →
  ∃ w', handleFileUpload file reply w = (Normal tt, w') ∧
        showsError w' networkErrorMessage ∧
        requests w' = (requests w ++ [file])%list ∧
        objectURLs w' = objectURLs w.
Proof.
  intros Hext Hsize Hload [Hmsg Hsec] Hreply.
  rewrite (handleFileUpload_valid file reply Hext Hsize).
  unfold upload, tryCatch.
  assert (∃ e,
    (showLoading;;
     result ← fetchJson file reply;
     success ← lift (getProp result "success");
     if toBoolean success then displayResults result file
     else error ← lift (getProp result "error");
          showError (jsOr error (JString unknownErrorMessage))) w
    = (Throw e,
       mkWorld (loadingView (document w)) (objectURLs w) (createdURLs w)
               (revocations w) (requests w ++ [file]) (console w)))
    as [e ->].
  { unfold mbind, M_bind. rewrite (showLoading_run w Hload).
    destruct Hreply as [-> | [-> | ->]]; by eexists. }
  set (w1 := mkWorld _ _ _ _ _ _).
  destruct (caught_upload_error w1) as (w' & Hrun & Hshow & Hreq & Hurls & _).
  { split; unfold present; cbn [w1 document]; by apply loadingView_present. }
  exists w'. by rewrite Hrun.
Qed.

Lemma failed_exchange_shows_network_error_witness :
  ∃ w', @handleFileUpload exampleBuiltins exampleFile (Responded None) examplePage
        = (Normal tt, w') ∧
        showsError w' networkErrorMessage ∧ requests w' = [exampleFile].
Proof.
  destruct (@failed_exchange_shows_network_error exampleBuiltins exampleFile
              (Responded None) examplePage) as (w' & Hrun & Hshow & Hreq & _);
    try reflexivity.
  - vm_compute. eauto.
  - split; vm_compute; eauto.
  - auto.
  - exists w'. split; [exact Hrun|]. split; [exact Hshow|exact Hreq].
Defined.

(** X4.  On a page without the loading section, [showLoading] throws before any
    request is made; the handler still reports a network error. *)
Theorem missing_loading_section_reports_network_error `{Builtins} file reply w :
  extensionAllowed (File.name file) = true →
  sizeTooLarge (File.size file) = false →
  document w !! "loadingSection" = None → errorRegionsPresent w →
  ∃ w', handleFileUpload file reply w = (Normal tt, w') ∧
        showsError w' networkErrorMessage ∧
        requests w' = requests w.
Proof.
  intros Hext Hsize Hnone [Hmsg Hsec].
  rewrite (handleFileUpload_valid file reply Hext Hsize).
  unfold upload, tryCatch.
  assert (showLoading w = (Throw TypeError, with_document (hideSections (document w)) w))
    as Hthrow.
  { unfold showLoading. unfold mbind, M_bind. rewrite hideAllSections_alter.
    rewrite assign_null; [done|]. cbn [document with_document].
    rewrite hideSections_section by (apply sectionIds_cases; auto).
    by rewrite Hnone. }
  rewrite (bind_throw _ _ _ _ _ Hthrow).
  destruct (caught_upload_error (with_document (hideSections (document w)) w))
    as (w' & Hrun & Hshow & Hreq & _).
  { split; apply present_with_document; by apply hideSections_present. }
  exists w'. by rewrite Hrun.
Qed.

Lemma missing_loading_section_reports_network_error_witness :
  ∃ w', @handleFileUpload exampleBuiltins exampleFile RequestFailed pageWithoutLoading
        = (Normal tt, w') ∧
        showsError w' networkErrorMessage ∧ requests w' = [].
Proof.
  destruct (@missing_loading_section_reports_network_error exampleBuiltins exampleFile
              RequestFailed pageWithoutLoading) as (w' & Hrun & Hshow & Hreq);
    try reflexivity.
  - split; vm_compute; eauto.
  - exists w'. split; [exact Hrun|]. split; [exact Hshow|exact Hreq].
Defined.

(** ** Where [handleFileUpload] ends *)

(** X5.  A JSON body that is a number, a string, a boolean or an array has no
    [success] and no [error] property: it is reported as a failed analysis
    with the generic fallback message. *)
Theorem non_object_response_shows_fallback `{Builtins} file result w :
  extensionAllowed (File.name file) = true →
  sizeTooLarge (File.size file) = false →
  present w "loadingSection" → errorRegionsPresent w →
  match result with
  | JBool _ | JNumber _ | JString _ | JArray _ => True
  | JUndefined | JNull | JObject _ => False
  end →
  ∃ w', handleFileUpload file (Responded (Some result)) w = (Normal tt, w') ∧
        showsError w' unknownErrorMessage ∧
        requests w' = (requests w ++ [file])%list.
Proof.
  intros Hext Hsize Hload Hregions Hshape.
  rewrite (handleFileUpload_valid file _ Hext Hsize).
  apply (upload_server_failure file result JUndefined JUndefined); try done;
    by destruct result.
Qed.

Lemma non_object_response_shows_fallback_witness :
  ∃ w', @handleFileUpload exampleBuiltins exampleFile
          (Responded (Some (JArray [JString "ok"]))) examplePage = (Normal tt, w') ∧
        showsError w' unknownErrorMessage ∧ requests w' = [exampleFile].
Proof.
  apply (@non_object_response_shows_fallback exampleBuiltins exampleFile
           (JArray [JString "ok"]) examplePage); try reflexivity; try exact I.
  - vm_compute. eauto.
  - split; vm_compute; eauto.
Defined.

(** The results section is shown whenever the rendering steps complete. *)
Lemma renderResults_shows_results `{Builtins} result file :
  triple (λ _, True) (renderResults result file)
    (λ _ w', displayOf w' "resultsSection" = Some "block") (λ _, True).
Proof.
  unfold renderResults.
  repeat lazymatch goal with
         | |- triple _ (mbind _ _) _ _ =>
             eapply triple_bind with (Q := λ _ _, True);
               [by apply always_ends|intros ?]
         end.
  intros w _. unfold assign.
  destruct (document w !! "resultsSection") as [el|]; [|done].
  unfold displayOf. simpl. by rewrite lookup_insert_eq.
Qed.

Lemma renderResults_normal_state `{Builtins} result file w w' :
  renderResults result file w = (Normal tt, w') → uiState w' = Some Results.
Proof.
  intros Hrun.
  pose proof (renderResults_shows_results result file w I) as Hshown.
  pose proof (renderResults_exclusive result file w I) as Hothers.
  rewrite Hrun in Hshown, Hothers. unfold onDocument in Hothers.
  unfold uiState.
  rewrite (Hidden_not_visible w' "loadingSection"),
          (Hidden_not_visible w' "errorSection")
    by (apply Hothers; [apply sectionIds_cases; auto|done]).
  unfold displayOf in Hshown. unfold visible.
  destruct (document w' !! "resultsSection") as [el|]; [|done].
  simpl in Hshown. injection Hshown as ->. done.
Qed.

Lemma frames_ErrorRegions id : frames id ErrorRegions.
Proof. apply frames_and; apply frames_Present. Qed.

(** [showError] either returns in the error view or throws while converting
    its argument; the error regions stay. *)
Lemma showError_settles `{Builtins} message :
  triple (onDocument ErrorRegions) (showError message)
    (λ _ w', uiState w' = Some Error) (onDocument ErrorRegions).
Proof.
  intros w Hp.
  pose proof (stable_showError ErrorRegions frames_ErrorRegions message w Hp) as Hst.
  destruct (toTextContent message) as [s|e] eqn:Hs.
  - destruct (showError_spec message s w Hp Hs) as (w' & -> & (Hui & _) & _). done.
  - destruct (showError message w) as [[[]|e'] w'] eqn:Hrun; [|done].
    exfalso. revert Hrun. unfold showError, mbind, M_bind.
    rewrite hideAllSections_alter. unfold assignText, getElementById, mbind, M_bind.
    cbn [document with_document].
    destruct (hideSections (document w) !! "errorMessage"); [|done].
    unfold lift. by rewrite Hs.
Qed.

Lemma displayResults_settles `{Builtins} result file :
  triple (onDocument ErrorRegions) (displayResults result file)
    (λ _, settled) (λ _, False).
Proof.
  intros w Hp. unfold displayResults, tryCatch.
  pose proof (stable_renderResults ErrorRegions frames_ErrorRegions result file w Hp)
    as Hst.
  destruct (renderResults result file w) as [[[]|e] w1] eqn:Hrun.
  - left. by eapply renderResults_normal_state.
  - unfold mbind, M_bind. simpl. set (w2 := mkWorld _ _ _ _ _ _).
    destruct (showError_spec (JString displayErrorMessage) displayErrorMessage w2)
      as (w' & -> & (Hui & _) & _); [exact Hst|done|]. by right.
Qed.

Lemma upload_settles `{Builtins} file reply :
  triple (onDocument ErrorRegions) (upload file reply) (λ _, settled) (λ _, False).
Proof.
  unfold upload. apply triple_tryCatch with (E' := onDocument ErrorRegions).
  - eapply triple_bind.
    { eapply triple_weaken;
        [apply (stable_showLoading ErrorRegions frames_ErrorRegions)|done|..];
        [intros a w Hw; exact Hw|done]. }
    intros []. eapply triple_bind.
    { eapply triple_weaken; [apply (stable_fetchJson file reply ErrorRegions)|done|..];
        [intros a w Hw; exact Hw|done]. }
    intros result. eapply triple_bind.
    { eapply triple_weaken; [apply (stable_lift (onDocument ErrorRegions))|done|..];
        [intros a w Hw; exact Hw|done]. }
    intros success. destruct (toBoolean success).
    + eapply triple_weaken; [apply displayResults_settles|done|done|done].
    + eapply triple_bind.
      { eapply triple_weaken; [apply (stable_lift (onDocument ErrorRegions))|done|..];
          [intros a w Hw; exact Hw|done]. }
      intros error. eapply triple_weaken; [apply showError_settles|done| |done].
      intros a w Hw. by right.
  - intros e w Hp.
    destruct (caught_upload_error w Hp) as (w' & -> & (Hui & _) & _). by right.
Qed.

(** X6.  On a page with the error regions, [handleFileUpload] never throws and
    never leaves the loading view on screen: whatever the file and whatever
    the network and the server do, it returns with either the results
    section or the error section showing, alone. *)
Theorem handleFileUpload_settles `{Builtins} file reply w :
  errorRegionsPresent w →
  ∃ w', handleFileUpload file reply w = (Normal tt, w') ∧
        (uiState w' = Some Results ∨ uiState w' = Some Error).
Proof.
  intros Hp. rewrite handleFileUpload_cases.
  assert (triple (onDocument ErrorRegions)
            (if extensionAllowed (File.name file)
             then if sizeTooLarge (File.size file)
                  then showError (JString fileTooLargeMessage)
                  else upload file reply
             else showError (JString unsupportedFormatMessage))
            (λ _, settled) (λ _, False)) as Htriple.
  { assert (∀ s, triple (onDocument ErrorRegions) (showError (JString s))
                   (λ _, settled) (λ _, False)) as Hshow.
    { intros s w0 Hp0.
      destruct (showError_spec (JString s) s w0 Hp0 eq_refl) as (w' & -> & (Hui & _) & _).
      by right. }
    destruct (extensionAllowed _); [|apply Hshow].
    destruct (sizeTooLarge _); [apply Hshow|apply upload_settles]. }
  specialize (Htriple w Hp).
  match type of Htriple with
  | match ?run with _ => _ end => destruct run as [[[]|e] w']
  end; [|done].
  by exists w'.
Qed.

Lemma handleFileUpload_settles_witness :
  ∃ w', @handleFileUpload exampleBuiltins exampleFile
          (Responded (Some (JObject exampleResponse))) examplePage = (Normal tt, w') ∧
        (uiState w' = Some Results ∨ uiState w' = Some Error).
Proof.
  apply (@handleFileUpload_settles exampleBuiltins). split; vm_compute; eauto.
Defined.

(** ** Hiding the sections *)

(** X7.  [hideAllSections] never throws, whichever sections the page lacks.
    Afterwards no section is visible, an element that is not one of the
    three sections is untouched, a section has changed in its display only,
    nothing outside the document has changed, and a second call changes
    nothing more. *)
Theorem hideAllSections_total w :
  ∃ w', hideAllSections w = (Normal tt, w') ∧
        (∀ id, id ∈ sectionIds → visible w' id = false) ∧
        (∀ id, id ∉ sectionIds → document w' !! id = document w !! id) ∧
        (∀ id, id ∈ sectionIds →
           document w' !! id = Element.set_display "none" <$> document w !! id) ∧
        outside w' = outside w ∧
        hideAllSections w' = (Normal tt, w').
Proof.
  exists (with_document (hideSections (document w)) w).
  split; [apply hideAllSections_alter|].
  split; [|split; [|split; [|split; [done|]]]].
  - intros id Hin. apply Hidden_not_visible. by apply hideSections_hidden.
  - intros id Hout. by apply hideSections_other.
  - intros id Hin. by apply hideSections_section.
  - rewrite hideAllSections_alter. cbn [document with_document]. f_equal.
    assert (hideSections (hideSections (document w)) = hideSections (document w)) as ->.
    { apply map_eq. intros id. destruct (decide (id ∈ sectionIds)) as [Hin|Hout].
      - rewrite !hideSections_section by done.
        by destruct (document w !! id).
      - by rewrite !hideSections_other. }
    by destruct w.
Qed.

(** ** An error that cannot be shown *)

(** X8.  On a page without the error-message region, [showError] throws a
    [TypeError] after it has hidden every section: nothing is visible, the
    error section included, and the message is lost. *)
Theorem showError_without_message_region `{Builtins} message w :
  document w !! "errorMessage" = None →
  ∃ w', showError message w = (Throw TypeError, w') ∧
        uiState w' = Some Idle ∧
        (∀ id, id ∉ sectionIds → document w' !! id = document w !! id) ∧
        outside w' = outside w.
Proof.
  intros Hnone. exists (with_document (hideSections (document w)) w).
  split; [|split; [|split; [|done]]].
  - unfold showError. eapply bind_normal; [apply hideAllSections_alter|].
    apply bind_throw. apply assignText_null. cbn [document with_document].
    by rewrite hideSections_other by not_a_section.
  - unfold uiState.
    by rewrite !Hidden_not_visible
      by (apply hideSections_hidden, sectionIds_cases; auto).
  - intros id Hout. by apply hideSections_other.
Qed.

Lemma showError_without_message_region_witness :
  ∃ w', @handleFileUpload exampleBuiltins (File.mk "track.flac" 2048 "fLaC")
          RequestFailed pageWithoutErrorMessage = (Throw TypeError, w') ∧
        uiState w' = Some Idle.
Proof.
  destruct (@showError_without_message_region exampleBuiltins
              (JString unsupportedFormatMessage) pageWithoutErrorMessage)
    as (w' & Hrun & Hidle & _); [reflexivity|].
  exists w'. split; [exact Hrun|exact Hidle].
Defined.

(** ** The ['ended'] listener *)

Lemma onEnded_single audio url w :
  Audio.onEnded audio = [url] →
  onEnded audio w =
  (Normal tt,
   mkWorld (document w) (delete url (objectURLs w)) (createdURLs w)
           (revocations w ++ [url]) (requests w) (console w)).
Proof. unfold onEnded. by intros ->. Qed.

(** X9.  After [addAudioPlayer], the end of playback of the new element revokes
    exactly the URL that element plays: the URL leaves the store, the other
    URLs stay, and one revocation is recorded.  The listener stays
    registered: when playback ends a second time, the same URL is revoked
    again. *)
Theorem ended_listener_revokes_its_url w file :
  present w "audioPlayer" →
  ∃ audio w1,
    addAudioPlayer file w = (Normal tt, w1) ∧
    childrenOf w1 "audioPlayer" = Some [audio] ∧
    Audio.src audio = createdURLs w ∧
    objectURLs w1 !! Audio.src audio = Some file ∧
    objectURLs (onEnded audio w1).2 !! Audio.src audio = None ∧
    (∀ url, url ≠ Audio.src audio →
       objectURLs (onEnded audio w1).2 !! url = objectURLs w !! url) ∧
    revocations (onEnded audio w1).2 = (revocations w ++ [Audio.src audio])%list ∧
    revocations (onEnded audio (onEnded audio w1).2).2
    = (revocations w ++ [Audio.src audio; Audio.src audio])%list.
Proof.
  intros Hp. eexists _, _. split; [by apply addAudioPlayer_run|].
  split.
  { unfold childrenOf. cbn [document]. rewrite !lookup_alter_eq.
    destruct Hp as [el ->]. reflexivity. }
  cbn [Audio.src]. rewrite !(onEnded_single _ (createdURLs w)) by reflexivity.
  cbn [snd objectURLs revocations].
  split; [done|]. split; [by rewrite lookup_insert_eq|].
  split; [by rewrite lookup_delete_eq|]. split.
  - intros url Hne. by rewrite lookup_delete_ne, lookup_insert_ne.
  - split; [done|]. by rewrite <- app_assoc.
Qed.

Lemma ended_listener_revokes_its_url_witness :
  ∃ audio w1,
    addAudioPlayer exampleFile examplePage = (Normal tt, w1) ∧
    objectURLs w1 !! Audio.src audio = Some exampleFile ∧
    objectURLs (onEnded audio w1).2 !! Audio.src audio = None.
Proof.
  destruct (ended_listener_revokes_its_url examplePage exampleFile)
    as (audio & w1 & Hrun & _ & _ & Hheld & Hgone & _).
  - vm_compute. eauto.
  - exists audio, w1. split; [exact Hrun|]. split; [exact Hheld|exact Hgone].
Defined.

(** ** A successful upload, end to end *)

Lemma resultsView_lookup_player word phonetic mean range seconds plot audio d :
  Element.children <$> resultsView word phonetic mean range seconds plot audio d
    !! "audioPlayer" = (λ _, [audio]) <$> d !! "audioPlayer".
Proof.
  unfold resultsView.
  rewrite lookup_alter_ne, !lookup_alter_eq, !lookup_alter_ne by done.
  rewrite hideSections_other by not_a_section. by destruct (d !! "audioPlayer").
Qed.

Lemma resultsView_lookup_plot word phonetic mean range seconds plot audio d :
  (λ el, (Element.src el, Element.display el)) <$>
    resultsView word phonetic mean range seconds plot audio d !! "plotImage"
  = (λ _, ("data:image/png;base64," +:+ plot, "block")) <$> d !! "plotImage".
Proof.
  unfold resultsView.
  rewrite !(lookup_alter_ne _ _ _ "plotImage") by done.
  rewrite !lookup_alter_eq, !lookup_alter_ne by done.
  rewrite hideSections_other by not_a_section. by destruct (d !! "plotImage").
Qed.

(** X10.  For an accepted file and a well-formed successful response, on a page
    with the loading section and the result regions: the handler sends one
    request, carrying the file; creates one object URL, for that same file;
    leaves in the player region exactly one audio element, which plays that
    URL and revokes it when it ends; shows the plot as a PNG data URL; and
    returns in the results state. *)
Theorem successful_upload `{Builtins} file props w word phonetic plot d mean range :
  extensionAllowed (File.name file) = true →
  sizeTooLarge (File.size file) = false →
  present w "loadingSection" → renderRegionsPresent w →
  props !! "success" = Some (JBool true) →
  props !! "word" = Some (JString word) →
  props !! "phonetic" = Some (JString phonetic) →
  props !! "duration" = Some (JNumber d) →
  props !! "plot" = Some (JString plot) →
  pitchTexts (props !! "stats") mean range →
  ∃ w', handleFileUpload file (Responded (Some (JObject props))) w = (Normal tt, w') ∧
        uiState w' = Some Results ∧
        requests w' = (requests w ++ [file])%list ∧
        objectURLs w' = <[createdURLs w := file]> (objectURLs w) ∧
        createdURLs w' = S (createdURLs w) ∧
        revocations w' = revocations w ∧
        childrenOf w' "audioPlayer"
        = Some [Audio.mk true "100%" "500px" (createdURLs w) [createdURLs w]] ∧
        (λ el, (Element.src el, Element.display el)) <$> document w' !! "plotImage"
        = Some ("data:image/png;base64," +:+ plot, "block") ∧
        textOf w' "wordText" = Some word ∧
        textOf w' "phoneticText" = Some phonetic.
Proof.
  intros Hext Hsize Hload Hregions Hsuccess Hword Hphonetic Hduration Hplot Hpitch.
  rewrite (handleFileUpload_valid file _ Hext Hsize).
  unfold upload, tryCatch, mbind at 1, M_bind at 1.
  unfold mbind, M_bind. rewrite (showLoading_run w Hload).
  cbn [fetchJson document with_document objectURLs createdURLs revocations
       requests console].
  unfold lift. cbn [getProp]. rewrite Hsuccess. cbn [default from_option id toBoolean].
  set (w1 := mkWorld _ _ _ _ _ _).
  assert (renderRegionsPresent w1) as Hregions1.
  { intros id Hid. unfold present. cbn [w1 document].
    by apply loadingView_present, Hregions. }
  unfold displayResults, tryCatch.
  rewrite (renderResults_run props file w1 word phonetic plot d mean range) by done.
  eexists. split; [reflexivity|].
  apply renderRegionsPresent_cases in Hregions
    as ([ew Hw] & [ep Hph] & _ & _ & _ & [ei Himg] & [ea Haudio] & [es Hres]).
  assert (∀ id, id ∉ sectionIds → loadingView (document w) !! id = document w !! id)
    as Hsame.
  { intros id Hout. unfold loadingView.
    rewrite lookup_alter_ne by (intros <-; apply Hout, sectionIds_cases; auto).
    by apply hideSections_other. }
  split.
  { unfold uiState, visible. cbn [document w1].
    rewrite !resultsView_lookup_section by (apply sectionIds_cases; auto).
    assert (is_Some (loadingView (document w) !! "resultsSection")) as [es' ->]
      by (by apply loadingView_present).
    by destruct (loadingView (document w) !! "loadingSection"),
                (loadingView (document w) !! "errorSection"). }
  split; [done|]. split; [done|]. split; [done|]. split; [done|].
  unfold childrenOf, textOf. cbn [document w1 createdURLs].
  rewrite resultsView_lookup_player, resultsView_lookup_plot.
  rewrite !Hsame by not_a_section. rewrite Haudio, Himg.
  split; [done|]. split; [done|].
  unfold resultsView.
  rewrite !(lookup_alter_ne _ _ _ "wordText"), lookup_alter_eq by done.
  rewrite !(lookup_alter_ne _ _ _ "phoneticText"), lookup_alter_eq by done.
  rewrite lookup_alter_ne by done.
  rewrite !hideSections_other by not_a_section.
  rewrite !Hsame by not_a_section. by rewrite Hw, Hph.
Qed.

Lemma successful_upload_witness :
  ∃ w', @handleFileUpload exampleBuiltins exampleFile
          (Responded (Some (JObject exampleResponse))) examplePage = (Normal tt, w') ∧
        uiState w' = Some Results ∧
        requests w' = [exampleFile] ∧
        objectURLs w' = {[0 := exampleFile]}.
Proof.
  destruct (@successful_upload exampleBuiltins exampleFile exampleResponse examplePage
              "hello" "h@loU" "iVBORw0KGgo=" double_1_5
              "220.5 Hz" "150.0 - 300.3 Hz")
    as (w' & Hrun & Hstate & Hreq & Hurls & _); try reflexivity.
  - vm_compute. eauto.
  - intros id Hid. unfold renderRegionIds in Hid.
    rewrite !elem_of_cons, elem_of_nil in Hid.
    destruct Hid as [->|[->|[->|[->|[->|[->|[->|[->|[]]]]]]]]]; vm_compute; eauto.
  - apply (pitch_given exampleStats double_220_456 double_150 double_300_25);
      reflexivity.
  - exists w'. split; [exact Hrun|]. split; [exact Hstate|]. split; [exact Hreq|].
    exact Hurls.
Defined.

(** ** What one upload does outside the document *)

Lemma blind_assign J id f : documentBlind J → stable J (assign id f).
Proof.
  intros Hblind w HJ. unfold assign.
  destruct (document w !! id); [by apply Hblind|done].
Qed.

Lemma blind_assignIfPresent J id f : documentBlind J → stable J (assignIfPresent id f).
Proof.
  intros Hblind. unfold assignIfPresent.
  apply stable_bind; [apply stable_getElementById|].
  intros [el|]; [by apply blind_assign|apply stable_ret].
Qed.

Lemma blind_assignText `{Builtins} J id v : documentBlind J → stable J (assignText id v).
Proof.
  intros Hblind. unfold assignText.
  apply stable_bind; [apply stable_getElementById|].
  intros [el|]; [|apply stable_throw].
  apply stable_bind; [apply stable_lift|]. intros text. by apply blind_assign.
Qed.

Ltac blind_step Hblind :=
  lazymatch goal with
  | |- stable _ (mret _) => apply stable_ret
  | |- stable _ (throw _) => apply stable_throw
  | |- stable _ (lift _) => apply stable_lift
  | |- stable _ (getElementById _) => apply stable_getElementById
  | |- stable _ (assign _ _) => apply blind_assign, Hblind
  | |- stable _ (assignIfPresent _ _) => apply blind_assignIfPresent, Hblind
  | |- stable _ (assignText _ _) => apply blind_assignText, Hblind
  | |- stable _ (forEach _ _) => apply stable_forEach; intros ?; cbv beta
  | |- stable _ (mbind _ _) => apply stable_bind; [|intros ?; cbv beta]
  | |- stable _ (if ?b then _ else _) => destruct b
  | |- stable _ (match ?x with _ => _ end) => destruct x
  end.

Section Footprint.
Context `{Builtins}.
Variables (file : File.t) (urls : gmap nat File.t) (created : nat).
Variables (revoked : list nat) (sent : list File.t).

Local Abbreviation phase' := (phase file urls created revoked sent).
Local Abbreviation anyPhase' := (anyPhase file urls created revoked sent).

Lemma phase_blind url request : documentBlind (phase' url request).
Proof. by intros d w. Qed.

Lemma phase_any url request w : phase' url request w → anyPhase' w.
Proof. intros Hphase. by exists url, request. Qed.

Lemma stable_anyPhase {A} (m : M A) :
  (∀ url request, stable (phase' url request) m) → stable anyPhase' m.
Proof.
  intros Hm w (url & request & Hphase). specialize (Hm url request w Hphase).
  destruct (m w) as [[a|e] w']; by eapply phase_any.
Qed.

Lemma phase_hideAllSections url request : stable (phase' url request) hideAllSections.
Proof.
  unfold hideAllSections. repeat blind_step (phase_blind url request).
Qed.

Lemma phase_showLoading url request : stable (phase' url request) showLoading.
Proof.
  unfold showLoading, hideAllSections. repeat blind_step (phase_blind url request).
Qed.

Lemma phase_showError url request message :
  stable (phase' url request) (showError message).
Proof.
  unfold showError, hideAllSections. repeat blind_step (phase_blind url request).
Qed.

Lemma phase_console_error url request label :
  stable (phase' url request) (console_error label).
Proof. by intros w. Qed.

Lemma phase_fetchJson reply :
  triple (phase' false false) (fetchJson file reply)
    (λ _, phase' false true) (phase' false true).
Proof.
  intros w (Hrev & Hreq & Hurls & Hcreated). unfold fetchJson.
  destruct reply as [|[v|]]; repeat split; simpl; try done; by rewrite Hreq.
Qed.

Lemma phase_addAudioPlayer request :
  triple (phase' false request) (addAudioPlayer file)
    (λ _, phase' true request) (phase' false request).
Proof.
  intros w (Hrev & Hreq & Hurls & Hcreated). unfold addAudioPlayer, mbind, M_bind.
  unfold assign at 1.
  destruct (document w !! "audioPlayer") as [el|]; [|done].
  unfold createObjectURL, assign. cbn [document with_document createdURLs].
  rewrite lookup_insert_eq. repeat split; simpl; try done; congruence.
Qed.

Lemma phase_prefix {A B} url request (m : M A) (k : A → M B) Q :
  stable (phase' url request) m →
  (∀ a, triple (phase' url request) (k a) Q anyPhase') →
  triple (phase' url request) (m ≫= k) Q anyPhase'.
Proof.
  intros Hm Hk. eapply triple_bind; [|exact Hk].
  eapply triple_weaken; [exact Hm|done|done|apply phase_any].
Qed.

Lemma phase_renderResults request result :
  triple (phase' false request) (renderResults result file)
    (λ _, phase' true request) anyPhase'.
Proof.
  unfold renderResults, fixedOf, hasStats, hideAllSections.
  repeat lazymatch goal with
         | |- triple _ (mbind _ (addAudioPlayer _)) _ _ =>
             eapply triple_bind;
               [eapply triple_weaken; [apply phase_addAudioPlayer|done|done|];
                apply phase_any|intros ?; cbv beta]
         | |- triple (phase' false _) (mbind _ _) _ _ =>
             apply phase_prefix;
               [repeat blind_step (phase_blind false request)|intros ?; cbv beta]
         end.
  eapply triple_weaken;
    [apply (blind_assign _ _ _ (phase_blind true request))|done|done|apply phase_any].
Qed.

Lemma phase_displayResults request result :
  triple (phase' false request) (displayResults result file)
    (λ _, anyPhase') anyPhase'.
Proof.
  unfold displayResults. apply triple_tryCatch with (E' := anyPhase').
  - eapply triple_weaken; [apply phase_renderResults|done| |done].
    intros ? w. apply phase_any.
  - intros e. apply stable_anyPhase. intros url request'.
    apply stable_bind; [apply phase_console_error|]. intros [].
    apply phase_showError.
Qed.

Lemma phase_upload reply :
  triple (phase' false false) (upload file reply) (λ _, anyPhase') anyPhase'.
Proof.
  unfold upload. apply triple_tryCatch with (E' := anyPhase').
  - apply phase_prefix; [apply phase_showLoading|]. intros [].
    eapply triple_bind.
    { eapply triple_weaken; [apply phase_fetchJson|done|done|apply phase_any]. }
    intros result. cbv beta.
    apply phase_prefix; [apply stable_lift|]. intros success.
    destruct (toBoolean success); [apply phase_displayResults|].
    apply phase_prefix; [apply stable_lift|]. intros error.
    eapply triple_weaken; [apply (phase_showError false true)|done| |apply phase_any].
    intros ? w Hw. exact (phase_any _ _ _ Hw).
  - intros e. apply stable_anyPhase. intros url request.
    apply stable_bind; [apply phase_console_error|]. intros [].
    apply phase_showError.
Qed.

Lemma phase_handleFileUpload reply :
  triple (phase' false false) (handleFileUpload file reply) (λ _, anyPhase') anyPhase'.
Proof.
  rewrite handleFileUpload_cases.
  assert (∀ s, triple (phase' false false) (showError (JString s))
                 (λ _, anyPhase') anyPhase') as Hshow.
  { intros s.
    eapply triple_weaken; [apply (phase_showError false false)|done| |apply phase_any].
    intros ? w Hw. exact (phase_any _ _ _ Hw). }
  destruct (extensionAllowed _); [|apply Hshow].
  destruct (sizeTooLarge _); [apply Hshow|apply phase_upload].
Qed.
End Footprint.

(** X11.  Whatever the file, the reply and the page, one run of
    [handleFileUpload] revokes no object URL, sends no request or exactly
    one, which carries the given file, and creates no object URL or exactly
    one, which refers to the given file. *)
Theorem handleFileUpload_footprint `{Builtins} file reply w :
  revocations (handleFileUpload file reply w).2 = revocations w ∧
  (requests (handleFileUpload file reply w).2 = requests w ∨
   requests (handleFileUpload file reply w).2 = (requests w ++ [file])%list) ∧
  ((objectURLs (handleFileUpload file reply w).2 = objectURLs w ∧
    createdURLs (handleFileUpload file reply w).2 = createdURLs w) ∨
   (objectURLs (handleFileUpload file reply w).2
    = <[createdURLs w := file]> (objectURLs w) ∧
    createdURLs (handleFileUpload file reply w).2 = S (createdURLs w))).
Proof.
  pose proof (phase_handleFileUpload file (objectURLs w) (createdURLs w)
                (revocations w) (requests w) reply w) as Hphase.
  assert (anyPhase file (objectURLs w) (createdURLs w) (revocations w) (requests w)
            (handleFileUpload file reply w).2) as (url & request & Hrev & Hreq & Hurls & Hcreated).
  { destruct (handleFileUpload file reply w) as [[[]|e] w']; by apply Hphase. }
  split; [done|]. split.
  - destruct request; auto.
  - destruct url; auto.
Qed.

(** ** A page without the audio player region *)

Lemma frames_NoPlayer id : frames id NoPlayer.
Proof.
  intros d el el' Hel Hno. unfold NoPlayer in *.
  destruct (decide (id = "audioPlayer")) as [->|Hne]; [congruence|].
  by rewrite lookup_insert_ne.
Qed.

Lemma frames_NoResults id : id ≠ "resultsSection" → frames id NoResults.
Proof.
  intros Hne. apply frames_and; [apply frames_NoPlayer|].
  by apply (frames_localAt id "resultsSection"); [apply localAt_Hidden|].
Qed.

Lemma stable_and {A} (I J : World → Prop) (m : M A) :
  stable I m → stable J m → stable (λ w, I w ∧ J w) m.
Proof.
  intros HI HJ w [Hi Hj]. specialize (HI w Hi). specialize (HJ w Hj).
  by destruct (m w) as [[a|e] w'].
Qed.

Section WithoutPlayer.
Context `{Builtins}.
Variables (file : File.t) (urls : gmap nat File.t) (created : nat).
Variables (revoked : list nat) (sent : list File.t).

Local Abbreviation phase' := (phase file urls created revoked sent).
Local Abbreviation unplayable' := (unplayable file urls created revoked sent).
Local Abbreviation unplayableAny' := (unplayableAny file urls created revoked sent).

Lemma unplayable_hideAllSections request :
  triple (λ w, onDocument NoPlayer w ∧
               phase' false request w)
    hideAllSections (λ _, unplayable' request) (unplayable' request).
Proof.
  intros w [Hno Hphase]. rewrite hideAllSections_alter. split; [split|done].
  - unfold NoPlayer. cbn [document with_document].
    by rewrite hideSections_other by not_a_section.
  - apply hideSections_hidden, sectionIds_cases. auto.
Qed.

Lemma unplayable_addAudioPlayer request :
  triple (unplayable' request) (addAudioPlayer file) (λ _ _, False) (unplayable' request).
Proof.
  intros w [[Hno Hhid] Hphase]. unfold addAudioPlayer.
  by rewrite (bind_throw _ _ _ _ _ (assign_null _ _ _ Hno)).
Qed.

Lemma unplayable_stable {A} request (m : M A) :
  stable (onDocument NoResults) m →
  stable (phase' false request) m →
  triple (unplayable' request) m (λ _, unplayable' request) (unplayable' request).
Proof. apply stable_and. Qed.

Ltac unplayable_prefix request :=
  apply unplayable_stable;
    [stable_steps; apply frames_NoResults; done
    |repeat blind_step (phase_blind file urls created revoked sent false request)].

Lemma unplayable_renderResults request result :
  triple (λ w, onDocument NoPlayer w ∧
               phase' false request w)
    (renderResults result file) (λ _ _, False) (unplayable' request).
Proof.
  unfold renderResults, fixedOf, hasStats.
  eapply triple_bind; [apply unplayable_hideAllSections|]. intros [].
  repeat lazymatch goal with
         | |- triple _ (mbind _ (addAudioPlayer _)) _ _ =>
             eapply triple_bind; [apply unplayable_addAudioPlayer|by intros ? ?]
         | |- triple _ (mbind _ _) _ _ =>
             eapply triple_bind;
               [unplayable_prefix request|intros ?; cbv beta]
         end.
Qed.

Lemma unplayable_showError request message :
  triple (λ w, onDocument NoPlayer w ∧
               phase' false request w)
    (showError message) (λ _, unplayable' request) (unplayable' request).
Proof.
  unfold showError.
  eapply triple_bind; [apply unplayable_hideAllSections|]. intros [].
  unplayable_prefix request.
Qed.

Lemma unplayable_weaken request w :
  unplayable' request w →
  onDocument NoPlayer w ∧ phase' false request w.
Proof. by intros [[? ?] ?]. Qed.

Lemma unplayable_displayResults request result :
  triple (λ w, onDocument NoPlayer w ∧
               phase' false request w)
    (displayResults result file) (λ _, unplayable' request) (unplayable' request).
Proof.
  unfold displayResults. apply triple_tryCatch with (E' := unplayable' request).
  - eapply triple_weaken; [apply unplayable_renderResults| | |];
      [intros w Hw; exact Hw|intros ? ? []|intros w Hw; exact Hw].
  - intros e. eapply triple_bind with (Q := λ _, unplayable' request).
    { by intros w [[? ?] ?]. }
    intros []. eapply triple_weaken; [apply unplayable_showError| | |];
      [apply unplayable_weaken|intros ? w Hw; exact Hw|intros w Hw; exact Hw].
Qed.

Lemma unplayable_any request w : unplayable' request w → unplayableAny' w.
Proof. intros Hw. by exists request. Qed.

Lemma triple_relax {A} (P : World → Prop) (m : M A) Q Q' (E E' : World → Prop) :
  triple P m Q E → (∀ a w, Q a w → Q' a w) → (∀ w, E w → E' w) → triple P m Q' E'.
Proof. intros Hm HQ HE. eapply triple_weaken; [exact Hm|done|exact HQ|exact HE]. Qed.

Lemma unplayable_fetchJson reply :
  triple (unplayable' false) (fetchJson file reply)
    (λ _, unplayable' true) (unplayable' true).
Proof.
  intros w [Hdoc Hphase].
  pose proof (phase_fetchJson file urls created revoked sent reply w Hphase) as Hf.
  assert (document (fetchJson file reply w).2 = document w) as Hsame
    by (by destruct reply as [|[v|]]).
  destruct (fetchJson file reply w) as [[v|e] w']; simpl in Hsame;
    (split; [unfold onDocument; by rewrite Hsame|done]).
Qed.

Lemma unplayable_handler request :
  triple (unplayable' request)
    (console_error "Upload error:";; showError (JString networkErrorMessage))
    (λ _, unplayable' request) (unplayable' request).
Proof.
  eapply triple_bind with (Q := λ _, unplayable' request).
  { by intros w [[? ?] ?]. }
  intros []. eapply triple_weaken; [apply unplayable_showError| | |];
    [apply unplayable_weaken|intros ? w Hw; exact Hw|intros w Hw; exact Hw].
Qed.

Lemma unplayable_upload reply :
  triple (λ w, onDocument NoPlayer w ∧
               phase' false false w)
    (upload file reply) (λ _, unplayableAny') unplayableAny'.
Proof.
  unfold upload. apply triple_tryCatch with (E' := unplayableAny').
  - eapply triple_bind with (Q := λ _, unplayable' false).
    { unfold showLoading. eapply triple_bind.
      - eapply triple_relax; [apply (unplayable_hideAllSections false)| |];
          [intros ? w Hw; exact Hw|apply unplayable_any].
      - intros []. eapply triple_relax; [unplayable_prefix false| |];
          [intros ? w Hw; exact Hw|apply unplayable_any]. }
    intros []. eapply triple_bind with (Q := λ _, unplayable' true).
    { eapply triple_relax; [apply unplayable_fetchJson| |];
        [intros ? w Hw; exact Hw|apply unplayable_any]. }
    intros result. cbv beta.
    eapply triple_bind with (Q := λ _, unplayable' true).
    { eapply triple_relax; [apply (stable_lift (unplayable' true))| |];
        [intros ? w Hw; exact Hw|apply unplayable_any]. }
    intros success. destruct (toBoolean success).
    + eapply triple_weaken; [apply (unplayable_displayResults true)| | |];
        [apply unplayable_weaken|intros ? w; apply unplayable_any|apply unplayable_any].
    + eapply triple_bind with (Q := λ _, unplayable' true).
      { eapply triple_relax; [apply (stable_lift (unplayable' true))| |];
          [intros ? w Hw; exact Hw|apply unplayable_any]. }
      intros error.
      eapply triple_weaken; [apply (unplayable_showError true)| | |];
        [apply unplayable_weaken|intros ? w; apply unplayable_any|apply unplayable_any].
  - intros e w [request Hw].
    pose proof (unplayable_handler request w Hw) as Hhandler.
    match type of Hhandler with
    | match ?run with _ => _ end => destruct run as [[[]|e'] w']
    end; by exists request.
Qed.
End WithoutPlayer.

(** X12.  On a page without the audio player region, no run of [handleFileUpload]
    creates an object URL, and none ends with the results section visible:
    [addAudioPlayer] throws before [URL.createObjectURL] is reached. *)
Theorem no_player_region_no_object_url `{Builtins} file reply w :
  document w !! "audioPlayer" = None →
  objectURLs (handleFileUpload file reply w).2 = objectURLs w ∧
  createdURLs (handleFileUpload file reply w).2 = createdURLs w ∧
  visible (handleFileUpload file reply w).2 "resultsSection" = false.
Proof.
  intros Hno.
  assert (unplayableAny file (objectURLs w) (createdURLs w) (revocations w) (requests w)
            (handleFileUpload file reply w).2)
    as (request & [_ Hhid] & _ & _ & Hurls & Hcreated).
  { assert (onDocument NoPlayer w ∧
            phase file (objectURLs w) (createdURLs w) (revocations w) (requests w)
              false false w) as Hstart by done.
    rewrite handleFileUpload_cases.
    assert (∀ s, unplayableAny file (objectURLs w) (createdURLs w) (revocations w)
                   (requests w) (showError (JString s) w).2) as Hshow.
    { intros s.
      pose proof (unplayable_showError file (objectURLs w) (createdURLs w)
                    (revocations w) (requests w) false (JString s) w Hstart) as Hrun.
      destruct (showError (JString s) w) as [[[]|e] w']; by exists false. }
    destruct (extensionAllowed _); [|apply Hshow].
    destruct (sizeTooLarge _); [apply Hshow|].
    pose proof (unplayable_upload file (objectURLs w) (createdURLs w)
                  (revocations w) (requests w) reply w Hstart) as Hrun.
    by destruct (upload file reply w) as [[[]|e] w']. }
  split; [done|]. split; [done|]. by apply Hidden_not_visible.
Qed.

Lemma no_player_region_no_object_url_witness :
  objectURLs (@handleFileUpload exampleBuiltins exampleFile
                (Responded (Some (JObject exampleResponse))) pageWithoutPlayer).2 = ∅ ∧
  textOf (@handleFileUpload exampleBuiltins exampleFile
            (Responded (Some (JObject exampleResponse))) pageWithoutPlayer).2
    "errorMessage" = Some displayErrorMessage.
Proof.
  split.
  - apply (@no_player_region_no_object_url exampleBuiltins exampleFile
             (Responded (Some (JObject exampleResponse))) pageWithoutPlayer).
    reflexivity.
  - vm_compute. reflexivity.
Defined.

(** ** Reset, continued *)

(** X13.  [resetApp] changes nothing outside the document, and in the document
    nothing but the file selection, the display of the three sections and
    the content of the player region: the texts, the plot and the error
    message of the last analysis stay where they were. *)
Theorem resetApp_keeps_rendered_data w :
  present w "fileInput" →
  ∃ w', resetApp w = (Normal tt, w') ∧
        outside w' = outside w ∧
        (∀ id, id ∉ sectionIds → id ≠ "audioPlayer" → id ≠ "fileInput" →
               document w' !! id = document w !! id) ∧
        (∀ id, textOf w' id = textOf w id ∨ id = "audioPlayer").
Proof.
  intros Hp. exists (with_document (idleView (document w)) w).
  split; [by apply resetApp_run|]. split; [done|]. split.
  - intros id Hsec Hplayer Hinput. cbn [document with_document].
    rewrite idleView_lookup. unfold resetElement.
    rewrite !bool_decide_eq_false_2 by done. by destruct (document w !! id).
  - intros id. destruct (decide (id = "audioPlayer")) as [->|Hne]; [by right|left].
    unfold textOf. cbn [document with_document]. rewrite idleView_lookup.
    unfold resetElement. rewrite (bool_decide_eq_false_2 _ Hne).
    destruct (document w !! id) as [el|]; [|done]. simpl.
    by repeat case_bool_decide.
Qed.

Lemma resetApp_keeps_rendered_data_witness :
  ∃ w', resetApp (@showError exampleBuiltins (JString "x") examplePage).2 = (Normal tt, w') ∧
        textOf w' "errorMessage" = Some "x".
Proof.
  destruct (resetApp_keeps_rendered_data
              (@showError exampleBuiltins (JString "x") examplePage).2)
    as (w' & Hrun & _ & _ & Htext).
  - vm_compute. eauto.
  - exists w'. split; [exact Hrun|].
    destruct (Htext "errorMessage") as [-> | Habs]; [reflexivity|discriminate].
Defined.

(** On a page without the file input, [resetApp] throws on its first
    statement: no section is hidden and the player is not emptied. *)
Theorem resetApp_without_file_input w :
  document w !! "fileInput" = None → resetApp w = (Throw TypeError, w).
Proof.
  intros Hno. unfold resetApp. apply bind_throw. by apply assign_null.
Qed.

(** ** The loading view *)

(** X14.  On a page with the loading section, [showLoading] returns with that
    section showing, alone; it changes no other element and nothing outside
    the document. *)
Theorem showLoading_enters_loading w :
  present w "loadingSection" →
  ∃ w', showLoading w = (Normal tt, w') ∧
        uiState w' = Some Loading ∧
        displayOf w' "loadingSection" = Some "block" ∧
        (∀ id, id ∉ sectionIds → document w' !! id = document w !! id) ∧
        outside w' = outside w.
Proof.
  intros Hp. exists (with_document (loadingView (document w)) w).
  split.
  { unfold showLoading. eapply bind_normal; [apply hideAllSections_alter|].
    rewrite assign_alter; [by destruct w|].
    by apply present_with_document, hideSections_present. }
  destruct Hp as [el Hel].
  assert (loadingView (document w) !! "loadingSection"
          = Some (Element.set_display "block" (Element.set_display "none" el))) as Hload.
  { unfold loadingView. rewrite lookup_alter_eq.
    rewrite hideSections_section by (apply sectionIds_cases; auto). by rewrite Hel. }
  assert (∀ id, id ∈ sectionIds → id ≠ "loadingSection" →
            visible (with_document (loadingView (document w)) w) id = false) as Hhid.
  { intros id Hin Hne. apply Hidden_not_visible. cbn [document with_document].
    intros el0. unfold loadingView. rewrite lookup_alter_ne by done.
    by apply hideSections_hidden. }
  split; [|split; [|split; [|done]]].
  - unfold uiState. rewrite (Hhid "resultsSection"), (Hhid "errorSection")
      by first [by apply sectionIds_cases; auto|done].
    unfold visible. cbn [document with_document]. by rewrite Hload.
  - unfold displayOf. cbn [document with_document]. by rewrite Hload.
  - intros id Hout. cbn [document with_document]. unfold loadingView.
    rewrite lookup_alter_ne by (intros <-; apply Hout, sectionIds_cases; auto).
    by apply hideSections_other.
Qed.

Lemma showLoading_enters_loading_witness :
  ∃ w', showLoading (@showError exampleBuiltins (JString "x") examplePage).2
        = (Normal tt, w') ∧ uiState w' = Some Loading.
Proof.
  destruct (showLoading_enters_loading
              (@showError exampleBuiltins (JString "x") examplePage).2)
    as (w' & Hrun & Hstate & _).
  - vm_compute. eauto.
  - exists w'. split; [exact Hrun|exact Hstate].
Defined.

(** ** The two halves of [handleFileUpload] *)

Section Await.
Context `{Builtins}.

Lemma fetchJson_split file reply w :
  fetchJson file reply w = (sendRequest file;; receiveJson reply) w.
Proof. by destruct reply as [|[v|]]. Qed.

(** Run without anything in between, the two halves are the whole. *)
Lemma upload_splits_at_await file reply w :
  handleFileUpload file reply w =
  (pending ← startUpload file;
   if pending : bool then resumeUpload file reply else mret tt) w.
Proof.
  unfold handleFileUpload, startUpload.
  destruct (fileExtension (File.name file)) as [ext|]; [|done].
  destruct (negb (Str.includes allowedExtensions ext)).
  { unfold mbind, M_bind. by destruct (showError _ w) as [[[]|e] w']. }
  destruct (sizeTooLarge (File.size file)).
  { unfold mbind, M_bind. by destruct (showError _ w) as [[[]|e] w']. }
  unfold upload, resumeUpload, tryCatch, mbind, M_bind.
  destruct (showLoading w) as [[[]|e] w1].
  - rewrite fetchJson_split. unfold mbind, M_bind, sendRequest, mret, M_ret. done.
  - by destruct (console_error "Upload error:" w1) as [[[]|e1] w2];
      [destruct (showError (JString networkErrorMessage) w2) as [[[]|e2] w3]|].
Qed.
End Await.

(** ** Overlapping uploads *)

Lemma resultsView_present word phonetic mean range seconds plot audio d id :
  is_Some (resultsView word phonetic mean range seconds plot audio d !! id)
  ↔ is_Some (d !! id).
Proof. unfold resultsView. by rewrite !lookup_alter_is_Some, hideSections_present. Qed.

Lemma resultsView_lookup_word word phonetic mean range seconds plot audio d :
  Element.textContent <$> resultsView word phonetic mean range seconds plot audio d
    !! "wordText" = (λ _, word) <$> d !! "wordText".
Proof.
  unfold resultsView.
  rewrite !(lookup_alter_ne _ _ _ "wordText"), lookup_alter_eq by done.
  rewrite hideSections_other by not_a_section. by destruct (d !! "wordText").
Qed.

Lemma resultsView_uiState word phonetic mean range seconds plot audio d
    urls created revoked sent logged :
  is_Some (d !! "resultsSection") →
  uiState (mkWorld (resultsView word phonetic mean range seconds plot audio d)
             urls created revoked sent logged) = Some Results.
Proof.
  intros [el Hel]. unfold uiState, visible. cbn [document].
  rewrite !resultsView_lookup_section by (apply sectionIds_cases; auto).
  rewrite Hel. by destruct (d !! "loadingSection"), (d !! "errorSection").
Qed.

Lemma startUpload_run `{Builtins} file w :
  extensionAllowed (File.name file) = true →
  sizeTooLarge (File.size file) = false →
  present w "loadingSection" →
  startUpload file w =
  (Normal true,
   mkWorld (loadingView (document w)) (objectURLs w) (createdURLs w)
           (revocations w) (requests w ++ [file]) (console w)).
Proof.
  intros Hext Hsize Hload. unfold startUpload.
  unfold extensionAllowed in Hext. rewrite fileExtension_afterFinal in Hext |- *.
  rewrite Hext, Hsize. cbn [negb]. unfold tryCatch, mbind, M_bind.
  by rewrite (showLoading_run w Hload).
Qed.

Lemma resumeUpload_success `{Builtins} file props w word phonetic plot d mean range :
  renderRegionsPresent w →
  props !! "success" = Some (JBool true) →
  props !! "word" = Some (JString word) →
  props !! "phonetic" = Some (JString phonetic) →
  props !! "duration" = Some (JNumber d) →
  props !! "plot" = Some (JString plot) →
  pitchTexts (props !! "stats") mean range →
  resumeUpload file (Responded (Some (JObject props))) w =
  (Normal tt,
   mkWorld
     (resultsView word phonetic mean range (Num.toFixed d 2) plot
        (Audio.mk true "100%" "500px" (createdURLs w) [createdURLs w]) (document w))
     (<[createdURLs w := file]> (objectURLs w)) (S (createdURLs w))
     (revocations w) (requests w) (console w)).
Proof.
  intros Hregions Hsuccess Hword Hphonetic Hduration Hplot Hpitch.
  unfold resumeUpload, tryCatch, mbind, M_bind, receiveJson, lift.
  cbn [getProp]. rewrite Hsuccess. cbn [default from_option id toBoolean].
  unfold displayResults, tryCatch.
  by rewrite (renderResults_run props file w word phonetic plot d mean range).
Qed.

(** X16.  Nothing ties a response to the upload that is current.  Let a first file
    be submitted, then a second one while the first request is in flight,
    and let the second response arrive before the first, both successful
    and well formed.  After the first file's late response the page shows
    the first file's word and plays the first file: the later choice of the
    user has been overwritten.  Both requests were sent, in order. *)
Theorem stale_response_overwrites `{Builtins}
    first second propsA propsB w wordA wordB phonA phonB plotA plotB dA dB
    meanA meanB rangeA rangeB :
  extensionAllowed (File.name first) = true →
  sizeTooLarge (File.size first) = false →
  extensionAllowed (File.name second) = true →
  sizeTooLarge (File.size second) = false →
  present w "loadingSection" → renderRegionsPresent w →
  propsA !! "success" = Some (JBool true) →
  propsA !! "word" = Some (JString wordA) →
  propsA !! "phonetic" = Some (JString phonA) →
  propsA !! "duration" = Some (JNumber dA) →
  propsA !! "plot" = Some (JString plotA) →
  pitchTexts (propsA !! "stats") meanA rangeA →
  propsB !! "success" = Some (JBool true) →
  propsB !! "word" = Some (JString wordB) →
  propsB !! "phonetic" = Some (JString phonB) →
  propsB !! "duration" = Some (JNumber dB) →
  propsB !! "plot" = Some (JString plotB) →
  pitchTexts (propsB !! "stats") meanB rangeB →
  ∃ w1 w2 w3 w4,
    startUpload first w = (Normal true, w1) ∧
    startUpload second w1 = (Normal true, w2) ∧
    resumeUpload second (Responded (Some (JObject propsB))) w2 = (Normal tt, w3) ∧
    resumeUpload first (Responded (Some (JObject propsA))) w3 = (Normal tt, w4) ∧
    uiState w2 = Some Loading ∧
    textOf w3 "wordText" = Some wordB ∧
    textOf w4 "wordText" = Some wordA ∧
    uiState w4 = Some Results ∧
    requests w4 = (requests w ++ [first; second])%list ∧
    (∃ audio, childrenOf w4 "audioPlayer" = Some [audio] ∧
              objectURLs w4 !! Audio.src audio = Some first).
Proof.
  intros HextA HsizeA HextB HsizeB Hload Hregions
         HsA HwA HpA HdA HplA HpitchA HsB HwB HpB HdB HplB HpitchB.
  eexists _, _, _, _.
  split; [by apply startUpload_run|].
  set (w1 := mkWorld _ _ _ _ _ _).
  assert (∀ id, present w1 id ↔ present w id) as Hp1.
  { intros id. unfold present. cbn [w1 document]. apply loadingView_present. }
  split; [apply startUpload_run; [done|done|by apply Hp1]|].
  set (w2 := mkWorld _ _ _ _ _ _).
  assert (∀ id, present w2 id ↔ present w id) as Hp2.
  { intros id. rewrite <- Hp1. unfold present. cbn [w2 document].
    apply loadingView_present. }
  split.
  { apply (resumeUpload_success second propsB w2 wordB phonB plotB dB meanB rangeB);
      try done. intros id Hid. by apply Hp2, Hregions. }
  set (w3 := mkWorld _ _ _ _ _ _).
  assert (∀ id, present w3 id ↔ present w id) as Hp3.
  { intros id. rewrite <- Hp2. unfold present. cbn [w3 document].
    apply resultsView_present. }
  split.
  { apply (resumeUpload_success first propsA w3 wordA phonA plotA dA meanA rangeA);
      try done. intros id Hid. by apply Hp3, Hregions. }
  set (w4 := mkWorld _ _ _ _ _ _).
  apply renderRegionsPresent_cases in Hregions
    as (Hw & _ & _ & _ & _ & _ & Haudio & Hres).
  split.
  { destruct (showLoading_enters_loading w1) as (w2' & Hrun & Hstate & _);
      [by apply Hp1|].
    rewrite (showLoading_run w1) in Hrun by (by apply Hp1).
    injection Hrun as <-. exact Hstate. }
  split.
  { unfold textOf. cbn [w3 document]. rewrite resultsView_lookup_word.
    apply Hp2 in Hw as [el Hel]. apply fmap_Some. by exists el. }
  split.
  { unfold textOf. cbn [w4 document]. rewrite resultsView_lookup_word.
    apply Hp3 in Hw as [el Hel]. apply fmap_Some. by exists el. }
  split.
  { apply resultsView_uiState. by apply Hp3. }
  split.
  { cbn [w4 w3 w2 w1 requests]. by rewrite <- app_assoc. }
  eexists. split.
  - unfold childrenOf. cbn [w4 document]. rewrite resultsView_lookup_player.
    apply Hp3 in Haudio as [el Hel]. apply fmap_Some. by exists el.
  - cbn [Audio.src w4 objectURLs]. by rewrite lookup_insert_eq.
Qed.

Lemma stale_response_overwrites_witness :
  ∃ w1 w2 w3 w4,
    @startUpload exampleBuiltins exampleFile examplePage = (Normal true, w1) ∧
    @startUpload exampleBuiltins secondFile w1 = (Normal true, w2) ∧
    @resumeUpload exampleBuiltins secondFile
      (Responded (Some (JObject exampleResponseB))) w2 = (Normal tt, w3) ∧
    @resumeUpload exampleBuiltins exampleFile
      (Responded (Some (JObject exampleResponse))) w3 = (Normal tt, w4) ∧
    textOf w3 "wordText" = Some "world" ∧
    textOf w4 "wordText" = Some "hello" ∧
    requests w4 = [exampleFile; secondFile].
Proof.
  destruct (@stale_response_overwrites exampleBuiltins exampleFile secondFile
              exampleResponse exampleResponseB examplePage
              "hello" "world" "h@loU" "h@loU" "iVBORw0KGgo=" "iVBORw0KGgo="
              double_1_5 double_1_5
              "220.5 Hz" "220.5 Hz" "150.0 - 300.3 Hz" "150.0 - 300.3 Hz")
    as (w1 & w2 & w3 & w4 & H1 & H2 & H3 & H4 & _ & HB & HA & _ & Hreq & _);
    try reflexivity.
  - vm_compute. eauto.
  - intros id Hid. unfold renderRegionIds in Hid.
    rewrite !elem_of_cons, elem_of_nil in Hid.
    destruct Hid as [->|[->|[->|[->|[->|[->|[->|[->|[]]]]]]]]]; vm_compute; eauto.
  - apply (pitch_given exampleStats double_220_456 double_150 double_300_25);
      reflexivity.
  - apply (pitch_given exampleStats double_220_456 double_150 double_300_25);
      reflexivity.
  - exists w1, w2, w3, w4. repeat (split; [assumption|]). exact Hreq.
Defined.

(** ** The drag highlight of the upload area (lines 28-46) *)

Lemma dragListener_others classes event c :
  c ≠ "dragover" → c ∈ dragListener classes event ↔ c ∈ classes.
Proof.
  intros Hne. destruct event; simpl; unfold ClassList.add, ClassList.remove.
  - case_bool_decide; [done|]. rewrite elem_of_app, list_elem_of_singleton. tauto.
  - rewrite list_elem_of_filter. tauto.
  - rewrite list_elem_of_filter. tauto.
Qed.

Lemma dragListener_highlight classes event :
  "dragover" ∈ dragListener classes event ↔ event = DragOver.
Proof.
  destruct event; simpl; unfold ClassList.add, ClassList.remove.
  - case_bool_decide; [done|]. rewrite elem_of_app, list_elem_of_singleton. tauto.
  - rewrite list_elem_of_filter. split; [tauto|done].
  - rewrite list_elem_of_filter. split; [tauto|done].
Qed.

Lemma dragListener_NoDup classes event : NoDup classes → NoDup (dragListener classes event).
Proof.
  intros Hnd. destruct event; simpl; unfold ClassList.add, ClassList.remove.
  - case_bool_decide as Hin; [done|]. apply NoDup_app. split; [done|].
    split; [|apply NoDup_singleton].
    intros c Hc Hc'. apply list_elem_of_singleton in Hc' as ->. done.
  - by apply NoDup_filter.
  - by apply NoDup_filter.
Qed.

(** X17.  After any sequence of drag events the upload area carries the
    [dragover] class exactly when the last event was a ['dragover']; the
    class never accumulates, and no other class is added or removed. *)
Theorem drag_highlight_follows_last_event (events : list DragEvent)
    (last : DragEvent) (classes : list string) :
  ("dragover" ∈ foldl dragListener classes (events ++ [last]) ↔ last = DragOver) ∧
  (∀ c, c ≠ "dragover" →
        c ∈ foldl dragListener classes (events ++ [last]) ↔ c ∈ classes) ∧
  (NoDup classes → NoDup (foldl dragListener classes (events ++ [last]))).
Proof.
  rewrite foldl_app. simpl. split; [apply dragListener_highlight|]. split.
  - intros c Hne. rewrite dragListener_others by done.
    revert classes. induction events as [|ev events IH]; intros classes; simpl; [done|].
    by rewrite IH, dragListener_others.
  - intros Hnd. apply dragListener_NoDup.
    revert classes Hnd. induction events as [|ev events IH]; intros classes Hnd; simpl;
      [done|]. by apply IH, dragListener_NoDup.
Qed.

(** ** Responses whose numbers are missing *)

Lemma bind_normal_inv {A B} (m : M A) (k : A → M B) w b w' :
  (m ≫= k) w = (Normal b, w') →
  ∃ a w1, m w = (Normal a, w1) ∧ k a w1 = (Normal b, w').
Proof.
  unfold mbind, M_bind. destruct (m w) as [[a|e] w1]; [|done].
  intros Hk. by exists a, w1.
Qed.

Lemma lift_normal_inv {A} (c : Completion A) w a w' :
  lift c w = (Normal a, w') → c = Normal a.
Proof. unfold lift. by intros [= -> ->]. Qed.

Lemma fixedOf_normal_inv `{Builtins} v key f w s w' :
  fixedOf v key f w = (Normal s, w') → numericAt v key.
Proof.
  intros Hrun. apply bind_normal_inv in Hrun as (a & w1 & Hget & Hfixed).
  apply lift_normal_inv in Hget. apply lift_normal_inv in Hfixed.
  destruct a; try done. by eexists.
Qed.

Lemma hasStats_filled `{Builtins} stats w :
  statsFilled stats → hasStats stats w = (Normal true, w).
Proof.
  intros [Htrue [n Hn]]. unfold hasStats. rewrite Htrue.
  unfold mbind, M_bind, lift. by rewrite Hn.
Qed.

(** The rendering steps complete only for a response whose [duration] is a
    number and whose [stats], when the condition of line 118 holds for it,
    carries three numbers. *)
Lemma renderResults_normal_inv `{Builtins} result file w w' :
  renderResults result file w = (Normal tt, w') →
  numericAt result "duration" ∧
  (∀ stats, getProp result "stats" = Normal stats → statsFilled stats →
     numericAt stats "mean_pitch" ∧ numericAt stats "min_pitch" ∧
     numericAt stats "max_pitch").
Proof.
  intros Hrun. unfold renderResults in Hrun.
  apply bind_normal_inv in Hrun as ([] & w1 & _ & Hrun).
  apply bind_normal_inv in Hrun as (word & w2 & _ & Hrun).
  apply bind_normal_inv in Hrun as ([] & w3 & _ & Hrun).
  apply bind_normal_inv in Hrun as (phonetic & w4 & _ & Hrun).
  apply bind_normal_inv in Hrun as ([] & w5 & _ & Hrun).
  apply bind_normal_inv in Hrun as (stats & w6 & Hstats & Hrun).
  apply lift_normal_inv in Hstats.
  apply bind_normal_inv in Hrun as (nonEmpty & w7 & Hhas & Hrun).
  apply bind_normal_inv in Hrun as ([] & w8 & Hfields & Hrun).
  apply bind_normal_inv in Hrun as (seconds & w9 & Hduration & _).
  split; [by eapply fixedOf_normal_inv|].
  intros stats' Hstats' Hfilled.
  assert (stats' = stats) as -> by congruence.
  rewrite (hasStats_filled stats w6 Hfilled) in Hhas. injection Hhas as <- <-.
  apply bind_normal_inv in Hfields as (mean & wa & Hmean & Hfields).
  apply bind_normal_inv in Hfields as ([] & wb & _ & Hfields).
  apply bind_normal_inv in Hfields as (lo & wc & Hlo & Hfields).
  apply bind_normal_inv in Hfields as (hi & wd & Hhi & _).
  repeat split; by eapply fixedOf_normal_inv.
Qed.

(** X18.  On a page with the error regions, a response whose [duration] is not a
    number, or whose non-empty [stats] lacks one of its three numbers, ends
    in the error view with the display-error message, whatever else the
    response and the page hold. *)
Theorem non_numeric_fields_show_display_error `{Builtins} result file w :
  errorRegionsPresent w →
  ¬ numericAt result "duration" ∨
  (∃ stats, getProp result "stats" = Normal stats ∧ statsFilled stats ∧
            ¬ (numericAt stats "mean_pitch" ∧ numericAt stats "min_pitch" ∧
               numericAt stats "max_pitch")) →
  ∃ w', displayResults result file w = (Normal tt, w') ∧
        showsError w' displayErrorMessage.
Proof.
  intros [Hmsg Hsec] Hbad. unfold displayResults, tryCatch.
  pose proof (renderResults_present result file w _ Hmsg) as Hmsg'.
  pose proof (renderResults_present result file w _ Hsec) as Hsec'.
  destruct (renderResults result file w) as [[[]|e] w1] eqn:Hrun.
  - exfalso. apply renderResults_normal_inv in Hrun as [Hduration Hstats].
    destruct Hbad as [Hbad | (stats & Hget & Hfilled & Hbad)]; [done|].
    by apply Hbad, Hstats.
  - unfold mbind, M_bind. simpl. set (w2 := mkWorld _ _ _ _ _ _).
    destruct (showError_spec (JString displayErrorMessage) displayErrorMessage w2)
      as (w' & Hshow & Hview & _); [by split|done|].
    by exists w'.
Qed.

Lemma non_numeric_fields_show_display_error_witness :
  ∃ w', @displayResults exampleBuiltins withoutMinPitch exampleFile examplePage
        = (Normal tt, w') ∧ showsError w' displayErrorMessage.
Proof.
  apply (@non_numeric_fields_show_display_error exampleBuiltins).
  - split; vm_compute; eauto.
  - right. exists (JObject {["mean_pitch" := JNumber double_220_456]}).
    split; [reflexivity|]. split.
    + split; [reflexivity|]. exists 0. reflexivity.
    + intros (_ & [x Hx] & _). vm_compute in Hx. discriminate.
Defined.

(** ** Leaks, on any page *)

Lemma examplePage_elements id el :
  document examplePage !! id = Some el → Element.children el = [].
Proof.
  unfold examplePage. cbn [document]. intros Hel.
  apply elem_of_list_to_map_2 in Hel. simpl in Hel.
  rewrite !elem_of_cons, elem_of_nil in Hel.
  repeat (destruct Hel as [Heq|Hel]; [by injection Heq as _ ->|]). done.
Qed.

Lemma replaced_player_url_leaks_witness :
  leaked (addAudioPlayer secondFile (addAudioPlayer exampleFile examplePage).2).2 0.
Proof.
  apply (replaced_player_url_leaks examplePage exampleFile secondFile).
  - vm_compute. eauto.
  - intros id el Hel _. by apply (examplePage_elements id).
Defined.

Lemma reset_player_url_leaks_witness :
  leaked (resetApp (addAudioPlayer exampleFile examplePage).2).2 0.
Proof.
  apply (reset_player_url_leaks examplePage exampleFile).
  - vm_compute. eauto.
  - vm_compute. eauto.
  - intros id el Hel _. by apply (examplePage_elements id).
Defined.
